(** * markdown-pdf: a shallow embedding of [src/index.ts]

    The program converts the Markdown files of a directory to PDF: it puts
    the local images of a document into its text as data URIs, hands the
    text to a Markdown parser, wraps the result in an HTML page with the
    style of the chosen paper format, and lets a headless browser print
    the page.

    This development models the parts of it that are plain computation
    (the image inliner, the derivation of the file name, the page template)
    as executable functions, and the parts that talk to the outside world
    (the command line, the prompt, the file system, the console, the
    headless browser) as commands of a small state and exception monad
    over an explicit [World].

    What the program takes from its platform is modelled as the platform
    documents it: strings are sequences of UTF-16 code units; the regular
    expressions are run by a backtracking matcher with the priorities of
    ECMAScript; [path] is Node's POSIX implementation; an exception carries
    its message; [await] is sequencing.  The Markdown parser and
    [toUpperCase] are parameters of the program. *)

From Stdlib Require Import NArith Lia String Ascii DecimalString.

From stdpp Require Import base list gmap.

(** ** JavaScript strings

    A JavaScript string is a sequence of UTF-16 code units.  A code unit is
    kept as an [N]; string literals of this file are ASCII and are turned
    into code units by [js]. *)

Module Js.

Abbreviation jsstring := (list N).

Definition js (s : string) : jsstring :=
  map N_of_ascii (list_ascii_of_string s).

(** The code units ECMAScript calls line terminators: LF, CR, LS and PS. *)
Definition isLineTerminator (c : N) : bool :=
  (c =? 10)%N || (c =? 13)%N || (c =? 8232)%N || (c =? 8233)%N.

Fixpoint str_eqb (a b : jsstring) : bool :=
  match a, b with
  | [], [] => true
  | x :: a', y :: b' => (x =? y)%N && str_eqb a' b'
  | _, _ => false
  end.

(** [String.prototype.startsWith] *)
Fixpoint startsWith (s p : jsstring) {struct p} : bool :=
  match p, s with
  | [], _ => true
  | x :: p', y :: s' => (x =? y)%N && startsWith s' p'
  | _ :: _, [] => false
  end.

(** [String.prototype.endsWith] *)
Definition endsWith (s p : jsstring) : bool :=
  startsWith (rev s) (rev p).

(** [String.prototype.indexOf], returning the text before and after the
    first occurrence instead of its position. *)
Fixpoint indexOf (s pat : jsstring) : option (jsstring * jsstring) :=
  if startsWith s pat then Some ([], drop (length pat) s)
  else match s with
       | [] => None
       | c :: s' =>
           match indexOf s' pat with
           | Some (before, after) => Some (c :: before, after)
           | None => None
           end
       end.

(** [String.prototype.includes] *)
Definition includes (s pat : jsstring) : bool :=
  match indexOf s pat with Some _ => true | None => false end.

(** [String.prototype.split] with a separator of one code unit. *)
Fixpoint split (sep : N) (s : jsstring) : list jsstring :=
  match s with
  | [] => [[]]
  | c :: s' =>
      if (c =? sep)%N then [] :: split sep s'
      else match split sep s' with
           | piece :: pieces => (c :: piece) :: pieces
           | [] => [[c]]
           end
  end.

(** [String.prototype.trim] removes white space and line terminators at both
    ends. *)
Definition isWhiteSpace (c : N) : bool :=
  (c =? 9)%N || (c =? 11)%N || (c =? 12)%N || (c =? 32)%N || (c =? 160)%N
  || (c =? 65279)%N || (c =? 5760)%N
  || ((8192 <=? c)%N && (c <=? 8202)%N)
  || (c =? 8239)%N || (c =? 8287)%N || (c =? 12288)%N
  || isLineTerminator c.

Fixpoint trimStart (s : jsstring) : jsstring :=
  match s with
  | c :: s' => if isWhiteSpace c then trimStart s' else s
  | [] => []
  end.

Definition trim (s : jsstring) : jsstring :=
  rev (trimStart (rev (trimStart s))).

(** [GetSubstitution] of ECMAScript for a match without capture groups, the
    case of both [replace] calls of the program: in the replacement text
    [$$] stands for a dollar sign, [$&] for the matched text, [$`] for the
    text before the match and [$'] for the text after it; any other dollar
    sign stands for itself. *)
Fixpoint getSubstitution (matched before after repl : jsstring) : jsstring :=
  match repl with
  | [] => []
  | c :: r =>
      if (c =? 36)%N then
        match r with
        | d :: r' =>
            if (d =? 36)%N then 36%N :: getSubstitution matched before after r'
            else if (d =? 38)%N then
              matched ++ getSubstitution matched before after r'
            else if (d =? 96)%N then
              before ++ getSubstitution matched before after r'
            else if (d =? 39)%N then
              after ++ getSubstitution matched before after r'
            else c :: getSubstitution matched before after r
        | [] => [c]
        end
      else c :: getSubstitution matched before after r
  end.

(** [String.prototype.replace] with a string pattern and a string
    replacement: only the first occurrence is replaced. *)
Definition replaceString (s pat repl : jsstring) : jsstring :=
  match indexOf s pat with
  | Some (before, after) =>
      before ++ getSubstitution pat before after repl ++ after
  | None => s
  end.

End Js.
Export Js.

(** ** Regular expressions

    A backtracking matcher for the fragment of ECMAScript regular
    expressions the program uses: single code units, [.], sequence,
    alternation (left alternative first), the lazy star of a single code
    unit class ([.*?]), numbered capture groups and the end anchor [$]
    (without the [m] flag: the end of the input).  The matcher is written
    with a continuation, as the ECMAScript specification is: the
    continuation receives the rest of the input and the captures, and a
    failure of the continuation makes the matcher try its next choice. *)

Module Regex.

Inductive cset :=
| CAny            (* [.]: any code unit but a line terminator *)
| CChr (c : N).   (* a literal code unit *)

Definition cset_mem (cs : cset) (c : N) : bool :=
  match cs with
  | CAny => negb (isLineTerminator c)
  | CChr d => (c =? d)%N
  end.

Inductive regex :=
| Eps
| Atom (cs : cset)
| Seq (r1 r2 : regex)
| Alt (r1 r2 : regex)
| LazyStar (cs : cset)
| Group (i : nat) (r : regex)
| Eos.

(** The literal text [s] as a regular expression. *)
Definition Lit (s : jsstring) : regex :=
  foldr (fun c r => Seq (Atom (CChr c)) r) Eps s.

(** Captures: the text of each group that took part in the match, the
    latest first. *)
Definition captures := list (nat * jsstring).

Fixpoint getcap (i : nat) (caps : captures) : option jsstring :=
  match caps with
  | [] => None
  | (j, w) :: caps' => if Nat.eqb i j then Some w else getcap i caps'
  end.

Section Matcher.

Context {A : Type}.

Fixpoint lazyStar (cs : cset) (k : jsstring -> option A) (s : jsstring)
  : option A :=
  match k s with
  | Some x => Some x
  | None =>
      match s with
      | c :: s' => if cset_mem cs c then lazyStar cs k s' else None
      | [] => None
      end
  end.

Fixpoint rmatch (r : regex) (k : jsstring -> captures -> option A)
    (s : jsstring) (caps : captures) : option A :=
  match r with
  | Eps => k s caps
  | Atom cs =>
      match s with
      | c :: s' => if cset_mem cs c then k s' caps else None
      | [] => None
      end
  | Seq r1 r2 => rmatch r1 (rmatch r2 k) s caps
  | Alt r1 r2 =>
      match rmatch r1 k s caps with
      | Some x => Some x
      | None => rmatch r2 k s caps
      end
  | LazyStar cs => lazyStar cs (fun s' => k s' caps) s
  | Group i r1 =>
      rmatch r1
        (fun s' caps' => k s' ((i, take (length s - length s') s) :: caps'))
        s caps
  | Eos => match s with [] => k s caps | _ :: _ => None end
  end.

End Matcher.

(** The result of [RegExp.prototype.exec]: the text skipped before the
    match, the matched text, the captures and the text after the match. *)
Record MatchResult := {
  before : jsstring;
  matched : jsstring;
  groups : captures;
  after : jsstring;
}.

(** One attempt at the start of [s]. *)
Definition matchHere (r : regex) (s : jsstring) : option MatchResult :=
  rmatch r
    (fun s' caps =>
       Some {| before := []; matched := take (length s - length s') s;
               groups := caps; after := s' |})
    s [].

(** [exec]: the leftmost position at which the matcher succeeds. *)
Fixpoint exec (r : regex) (s : jsstring) : option MatchResult :=
  match matchHere r s with
  | Some m => Some m
  | None =>
      match s with
      | [] => None
      | c :: s' =>
          match exec r s' with
          | Some m =>
              Some {| before := c :: before m; matched := matched m;
                      groups := groups m; after := after m |}
          | None => None
          end
      end
  end.

(** The matches a global regular expression finds in [s], from left to
    right, each with the text between the previous match and itself, and
    the text after the last one.  After an empty match the search moves on
    by one code unit, as [AdvanceStringIndex] does. *)
Fixpoint matchAll_fuel (fuel : nat) (r : regex) (s : jsstring)
  : list MatchResult * jsstring :=
  match fuel with
  | 0 => ([], s)
  | S fuel' =>
      match exec r s with
      | None => ([], s)
      | Some m =>
          match matched m, after m with
          | [], [] => ([m], [])
          | [], c :: rest =>
              let (ms, tail) := matchAll_fuel fuel' r rest in
              match ms with
              | [] => ([m], c :: tail)
              | m' :: ms' =>
                  (m :: {| before := c :: before m'; matched := matched m';
                           groups := groups m'; after := after m' |} :: ms',
                   tail)
              end
          | _ :: _, rest =>
              let (ms, tail) := matchAll_fuel fuel' r rest in (m :: ms, tail)
          end
      end
  end.

Definition matchAll (r : regex) (s : jsstring) : list MatchResult * jsstring :=
  matchAll_fuel (S (length s)) r s.

(** *** The language of a regular expression *)

(** [matches r w rest caps caps']: [r] can match [w] in front of [rest],
    turning the captures [caps] into [caps']. *)
Fixpoint matches (r : regex) (w rest : jsstring) (caps caps' : captures)
  : Prop :=
  match r with
  | Eps => w = [] /\ caps' = caps
  | Atom cs => exists c, w = [c] /\ cset_mem cs c = true /\ caps' = caps
  | Seq r1 r2 =>
      exists w1 w2 caps1,
        w = w1 ++ w2 /\ matches r1 w1 (w2 ++ rest) caps caps1 /\
        matches r2 w2 rest caps1 caps'
  | Alt r1 r2 => matches r1 w rest caps caps' \/ matches r2 w rest caps caps'
  | LazyStar cs => forallb (cset_mem cs) w = true /\ caps' = caps
  | Group i r1 =>
      exists caps1, matches r1 w rest caps caps1 /\ caps' = (i, w) :: caps1
  | Eos => w = [] /\ rest = [] /\ caps' = caps
  end.

(** The text of the matches found by [matchAll], with the text between
    them. *)
Definition pieces (ms : list MatchResult) : jsstring :=
  concat (map (fun m => before m ++ matched m) ms).

Definition isMatch (r : regex) (m : MatchResult) : Prop :=
  matches r (matched m) (after m) [] (groups m).

End Regex.
Export Regex.

(** ** Node's [path] module (POSIX flavour)

    The program calls [path.resolve], [path.join] and [path.extname].  They
    are modelled after Node's [lib/path.js]: a path is cut at its slashes,
    empty and [.] segments are dropped, and a [..] segment removes the
    segment before it. *)

Module Path.

Definition slash : N := 47.

Definition dot : N := 46.

Definition is_dot (seg : jsstring) : bool := str_eqb seg [dot].

Definition is_dotdot (seg : jsstring) : bool := str_eqb seg [dot; dot].

(** [normalizeString] on segments; [stack] holds the segments kept so far,
    the last one first. *)
Fixpoint normalizeSegments (allowAboveRoot : bool) (segs stack : list jsstring)
  : list jsstring :=
  match segs with
  | [] => stack
  | seg :: segs' =>
      if str_eqb seg [] || is_dot seg then
        normalizeSegments allowAboveRoot segs' stack
      else if is_dotdot seg then
        match stack with
        | top :: stack' =>
            if is_dotdot top then
              normalizeSegments allowAboveRoot segs'
                (if allowAboveRoot then seg :: stack else stack)
            else normalizeSegments allowAboveRoot segs' stack'
        | [] =>
            normalizeSegments allowAboveRoot segs'
              (if allowAboveRoot then [seg] else [])
        end
      else normalizeSegments allowAboveRoot segs' (seg :: stack)
  end.

(** The segments joined by slashes. *)
Fixpoint joinSegments (segs : list jsstring) : jsstring :=
  match segs with
  | [] => []
  | [seg] => seg
  | seg :: segs' => seg ++ slash :: joinSegments segs'
  end.

Definition normalizeString (p : jsstring) (allowAboveRoot : bool) : jsstring :=
  joinSegments (rev (normalizeSegments allowAboveRoot (split slash p) [])).

Definition isAbsolute (p : jsstring) : bool :=
  match p with c :: _ => (c =? slash)%N | [] => false end.

(** The loop of [path.resolve]: the arguments from the last to the first,
    until the path is absolute. *)
Fixpoint resolveLoop (args_rev : list jsstring) (resolved : jsstring)
  : jsstring * bool :=
  match args_rev with
  | [] => (resolved, false)
  | p :: args' =>
      if str_eqb p [] then resolveLoop args' resolved
      else
        let resolved' := p ++ slash :: resolved in
        if isAbsolute p then (resolved', true) else resolveLoop args' resolved'
  end.

(** [path.resolve(...args)] in the working directory [cwd]. *)
Definition resolve (cwd : jsstring) (args : list jsstring) : jsstring :=
  let (resolved, absolute) :=
    match resolveLoop (rev args) [] with
    | (r, true) => (r, true)
    | (r, false) =>
        if str_eqb cwd [] then (r, false) else (cwd ++ slash :: r, isAbsolute cwd)
    end in
  let normal := normalizeString resolved (negb absolute) in
  if absolute then slash :: normal
  else match normal with [] => [dot] | _ :: _ => normal end.

(** [path.normalize] *)
Definition normalize (p : jsstring) : jsstring :=
  match p with
  | [] => [dot]
  | _ :: _ =>
      let absolute := isAbsolute p in
      let trailing := endsWith p [slash] in
      match normalizeString p (negb absolute) with
      | [] =>
          if absolute then [slash]
          else if trailing then [dot; slash] else [dot]
      | (_ :: _) as normal =>
          let normal' := if trailing then normal ++ [slash] else normal in
          if absolute then slash :: normal' else normal'
      end
  end.

(** [path.join(...args)] *)
Definition join (args : list jsstring) : jsstring :=
  match filter (fun a => a <> []) args with
  | [] => [dot]
  | parts => normalize (joinSegments parts)
  end.

Fixpoint dropTrailingSlashes_rev (r : jsstring) : jsstring :=
  match r with
  | c :: r' => if (c =? slash)%N then dropTrailingSlashes_rev r' else r
  | [] => []
  end.

(** The text of [r] up to its first [c], and whether there was one. *)
Fixpoint takeUntil (c : N) (r : jsstring) : jsstring * bool :=
  match r with
  | [] => ([], false)
  | x :: r' =>
      if (x =? c)%N then ([], true)
      else let (t, found) := takeUntil c r' in (x :: t, found)
  end.

(** The last component of a path, what [extname] looks at: the text after
    the last slash, the slashes at the end of the path apart. *)
Definition lastComponent (p : jsstring) : jsstring :=
  rev (fst (takeUntil slash (dropTrailingSlashes_rev (rev p)))).

(** [path.extname]: from the last dot of the last component to its end;
    empty when there is no dot, when the component starts with its only
    dot, and for the component [..]. *)
Definition extname (p : jsstring) : jsstring :=
  let base := lastComponent p in
  let (ext_rev, found) := takeUntil dot (rev base) in
  if negb found then []
  else if (length base =? S (length ext_rev))%nat then []
  else if is_dotdot base then []
  else dot :: rev ext_rev.

(** A text that is empty or ends with a slash: what stands before the last
    component of a path. *)
Definition directoryPart (p : jsstring) : Prop :=
  p = [] \/ exists q, p = q ++ [slash].

(** A segment that [normalizeString] keeps as it is. *)
Definition plainSegment (seg : jsstring) : Prop :=
  (slash ∉ seg) /\ seg <> [] /\ seg <> [dot] /\ seg <> [dot; dot].

End Path.

(** ** Base64, as [Buffer.prototype.toString("base64")] produces it *)

Module Base64.

Definition alphabet : jsstring :=
  js "ABCDEFGHIJKLMNOPQRSTUVWXYZabcdefghijklmnopqrstuvwxyz0123456789+/".

Definition pad : N := 61.

Definition digit (n : N) : N := nth (N.to_nat n) alphabet 65%N.

Fixpoint encode (bs : list Byte.byte) : jsstring :=
  match bs with
  | [] => []
  | [a] =>
      let a := Byte.to_N a in
      [digit (N.shiftr a 2); digit (N.shiftl (N.land a 3) 4); pad; pad]
  | [a; b] =>
      let a := Byte.to_N a in
      let b := Byte.to_N b in
      [digit (N.shiftr a 2);
       digit (N.lor (N.shiftl (N.land a 3) 4) (N.shiftr b 4));
       digit (N.shiftl (N.land b 15) 2); pad]
  | a :: b :: c :: bs' =>
      let a := Byte.to_N a in
      let b := Byte.to_N b in
      let c := Byte.to_N c in
      digit (N.shiftr a 2)
      :: digit (N.lor (N.shiftl (N.land a 3) 4) (N.shiftr b 4))
      :: digit (N.lor (N.shiftl (N.land b 15) 2) (N.shiftr c 6))
      :: digit (N.land c 63)
      :: encode bs'
  end.

End Base64.

(** ** The world outside the program

    What the program reads and changes: its command line, the answer typed
    at the prompt, the console, the files it reads, the input and output
    directories and the headless browser. *)

Inductive stream := Stdout | Stderr.

(** The steps of a rendering that can fail. *)
Inductive Step := Launch | NewPage | SetContent | PrintPdf | CloseBrowser.

(** A file as [fs.readFileSync] sees it: its bytes, and its text when it is
    read as UTF-8. A file that is there but not [readable] makes the read
    throw. *)
Record File := {
  readable : bool;
  bytes : list Byte.byte;
  text : jsstring;
}.

(** The options of one [page.pdf] call. *)
Record PdfOptions := {
  pdf_path : jsstring;
  pdf_format : jsstring;
  pdf_landscape : bool;
  pdf_printBackground : bool;
  pdf_margin_top : jsstring;
  pdf_margin_bottom : jsstring;
  pdf_margin_left : jsstring;
  pdf_margin_right : jsstring;
  pdf_preferCSSPageSize : bool;
  pdf_displayHeaderFooter : bool;
}.

(** The operations on the output directory as a whole:
    [fs.mkdirSync(OUTPUT_DIR, ...)] and [fs.readdirSync(OUTPUT_DIR)]. *)
Inductive OutStep := MakeDirectory | ListDirectory.

Record World := {
  (** [process.argv] *)
  argv : list jsstring;
  (** the line typed at the prompt of [rl.question] *)
  answer : jsstring;
  (** what was written to the console, the oldest line first *)
  console : list (stream * jsstring);
  (** the files [fs.existsSync] and [fs.readFileSync] see, by path *)
  files : gmap jsstring File;
  (** the names [fs.readdirSync(INPUT_DIR)] lists; [None] when it throws *)
  indir : option (list jsstring);
  (** the output directory: [None] when it does not exist, else its
      entries, each with whether [fs.unlinkSync] can remove it *)
  outdir : option (gmap jsstring bool);
  (** browsers launched and browsers closed so far *)
  launched : nat;
  closed : nat;
  (** the documents printed so far, the latest first *)
  printed : list (jsstring * PdfOptions);
  (** the rendering steps that fail in this world *)
  fault : Step -> bool;
  (** the operations on the output directory that fail in this world *)
  outfault : OutStep -> bool;
  (** whether a browser whose [close] throws is closed all the same *)
  closedOnFailure : bool;
}.

Definition set_console (f : list (stream * jsstring) -> list (stream * jsstring))
    (w : World) : World :=
  {| argv := argv w; answer := answer w; console := f (console w);
     files := files w; indir := indir w; outdir := outdir w;
     launched := launched w; closed := closed w; printed := printed w;
     fault := fault w;
     outfault := outfault w; closedOnFailure := closedOnFailure w |}.

Definition set_outdir (d : option (gmap jsstring bool)) (w : World) : World :=
  {| argv := argv w; answer := answer w; console := console w;
     files := files w; indir := indir w; outdir := d;
     launched := launched w; closed := closed w; printed := printed w;
     fault := fault w;
     outfault := outfault w; closedOnFailure := closedOnFailure w |}.

Definition set_browser (l c : nat) (p : list (jsstring * PdfOptions))
    (w : World) : World :=
  {| argv := argv w; answer := answer w; console := console w;
     files := files w; indir := indir w; outdir := outdir w;
     launched := l; closed := c; printed := p; fault := fault w;
     outfault := outfault w; closedOnFailure := closedOnFailure w |}.

(** ** Commands

    A command runs in a world and either returns a value or throws; the
    world it leaves is kept in both cases.  [await] is sequencing: the
    program never has two commands in flight. *)

Inductive outcome (A : Type) :=
| Returned (a : A)
| Thrown (e : jsstring).

Arguments Returned {A} a.

Arguments Thrown {A} e.

Definition M (A : Type) : Type := World -> outcome A * World.

Definition ret {A} (a : A) : M A := fun w => (Returned a, w).

Definition throw {A} (e : jsstring) : M A := fun w => (Thrown e, w).

Definition bind {A B} (m : M A) (k : A -> M B) : M B :=
  fun w =>
    match m w with
    | (Returned a, w') => k a w'
    | (Thrown e, w') => (Thrown e, w')
    end.

(** [try { m } catch (e) { h e }] *)
Definition tryCatch {A} (m : M A) (h : jsstring -> M A) : M A :=
  fun w =>
    match m w with
    | (Returned a, w') => (Returned a, w')
    | (Thrown e, w') => h e w'
    end.

Definition gets {A} (f : World -> A) : M A := fun w => (Returned (f w), w).

Definition modify (f : World -> World) : M unit := fun w => (Returned tt, f w).

Notation "x <- m ;; k" := (bind m (fun x => k))
  (at level 100, m at next level, right associativity).

Notation "m ;; k" := (bind m (fun _ => k))
  (at level 100, right associativity).

(** [for (const x of xs) body x], with the loop's local state [acc]. *)
Fixpoint forEach {A S} (body : A -> S -> M S) (xs : list A) (acc : S) : M S :=
  match xs with
  | [] => ret acc
  | x :: xs' => acc' <- body x acc ;; forEach body xs' acc'
  end.

(** *** The console *)

Definition console_log (line : jsstring) : M unit :=
  modify (set_console (fun c => c ++ [(Stdout, line)])).

Definition console_error (line : jsstring) : M unit :=
  modify (set_console (fun c => c ++ [(Stderr, line)])).

(** *** The file system *)

Definition existsSync (p : jsstring) : M bool :=
  gets (fun w => bool_decide (is_Some (files w !! p))).

Definition readFile (p : jsstring) : M File :=
  f <- gets (fun w => files w !! p) ;;
  match f with
  | Some f => if readable f then ret f else throw (js "EACCES: " ++ p)
  | None => throw (js "ENOENT: " ++ p)
  end.

(** [fs.readFileSync(p)]: the bytes. *)
Definition readFileSync (p : jsstring) : M (list Byte.byte) :=
  f <- readFile p ;; ret (bytes f).

(** [fs.readFileSync(p, "utf-8")]: the text. *)
Definition readFileSync_utf8 (p : jsstring) : M jsstring :=
  f <- readFile p ;; ret (text f).

(** *** The output directory *)

Definition outdir_exists : M bool :=
  gets (fun w => bool_decide (is_Some (outdir w))).

(** [fs.mkdirSync(OUTPUT_DIR, { recursive: true })] *)
Definition outdir_mkdir : M unit :=
  d <- gets outdir ;;
  match d with
  | Some _ => ret tt
  | None =>
      failing <- gets (fun w => outfault w MakeDirectory) ;;
      if failing then throw (js "EACCES: mkdir")
      else modify (set_outdir (Some ∅))
  end.

(** [fs.readdirSync(OUTPUT_DIR)] *)
Definition outdir_readdir : M (list jsstring) :=
  d <- gets outdir ;;
  match d with
  | Some d =>
      failing <- gets (fun w => outfault w ListDirectory) ;;
      if failing then throw (js "EACCES: scandir")
      else ret (map fst (map_to_list d))
  | None => throw (js "ENOENT: scandir")
  end.

(** [fs.unlinkSync(path.join(OUTPUT_DIR, name))] *)
Definition outdir_unlink (name : jsstring) : M unit :=
  d <- gets outdir ;;
  match d with
  | Some d =>
      match d !! name with
      | Some true => modify (set_outdir (Some (delete name d)))
      | Some false => throw (js "EPERM: " ++ name)
      | None => throw (js "ENOENT: " ++ name)
      end
  | None => throw (js "ENOENT: " ++ name)
  end.

(** *** The headless browser *)

Definition step (s : Step) : M unit :=
  failing <- gets (fun w => fault w s) ;;
  if failing then throw (js "puppeteer") else ret tt.

(** [puppeteer.launch] *)
Definition browser_launch : M unit :=
  step Launch ;;
  modify (fun w => set_browser (S (launched w)) (closed w) (printed w) w).

(** [browser.newPage] *)
Definition browser_newPage : M unit := step NewPage.

(** [page.setContent] *)
Definition page_setContent (html : jsstring) : M unit := step SetContent.

(** [page.pdf]: the document is written into the output directory. *)
Definition page_pdf (name html : jsstring) (options : PdfOptions) : M unit :=
  step PrintPdf ;;
  d <- gets outdir ;;
  match d with
  | Some d =>
      modify (set_outdir (Some (<[name := true]> d))) ;;
      modify (fun w =>
                set_browser (launched w) (closed w)
                  ((html, options) :: printed w) w)
  | None => throw (js "ENOENT: " ++ name)
  end.

(** [browser.close]: when it throws, the browser may have been closed or
    not. *)
Definition browser_close : M unit :=
  failing <- gets (fun w => fault w CloseBrowser) ;;
  if failing then
    closedAnyway <- gets closedOnFailure ;;
    (if closedAnyway
     then modify (fun w =>
                    set_browser (launched w) (S (closed w)) (printed w) w)
     else ret tt) ;;
    throw (js "puppeteer")
  else modify (fun w => set_browser (launched w) (S (closed w)) (printed w) w).

(** ** The program, [src/index.ts] *)

Inductive PaperFormat := A2 | A3 | A4 | A5.

(** A format as the string the program handles. *)
Definition formatName (f : PaperFormat) : jsstring :=
  match f with
  | A2 => js "A2"
  | A3 => js "A3"
  | A4 => js "A4"
  | A5 => js "A5"
  end.

Record FormatConfig := {
  margin : jsstring;
  fontSize : jsstring;
  description : jsstring;
}.

Definition formatConfigs (f : PaperFormat) : FormatConfig :=
  match f with
  | A2 =>
      {| margin := js "25mm"; fontSize := js "14px";
         description := js "A2 (420" ++ [215]%N ++ js "594 mm) - Extra grande" |}
  | A3 =>
      {| margin := js "20mm"; fontSize := js "13px";
         description := js "A3 (297" ++ [215]%N ++ js "420 mm) - Grande" |}
  | A4 =>
      {| margin := js "20mm"; fontSize := js "12px";
         description :=
           js "A4 (210" ++ [215]%N ++ js "297 mm) - Padr" ++ [227]%N ++ js "o" |}
  | A5 =>
      {| margin := js "15mm"; fontSize := js "11px";
         description := js "A5 (148" ++ [215]%N ++ js "210 mm) - Compacto" |}
  end.

(** [Object.keys(formatConfigs)] *)
Definition formatKeys : list PaperFormat := [A2; A3; A4; A5].

(** [Object.keys(formatConfigs).includes(s)], with the key found. *)
Definition formatOfString (s : jsstring) : option PaperFormat :=
  find (fun f => str_eqb (formatName f) s) formatKeys.

(** [String.prototype.toLowerCase] on the code units of ASCII; the program
    applies it to the names of the formats only. *)
Definition toLowerCase (s : jsstring) : jsstring :=
  map (fun c => if (65 <=? c)%N && (c <=? 90)%N then (c + 32)%N else c) s.

(** [imageToBase64] *)
Definition imageToBase64 (imgPath : jsstring) : M (option jsstring) :=
  tryCatch
    (imgBuffer <- readFileSync imgPath ;;
     let ext := drop 1 (Path.extname imgPath) in
     let mimeType :=
       js "image/" ++ (if str_eqb ext (js "jpg") then js "jpeg" else ext) in
     ret (Some (js "data:" ++ mimeType ++ js ";base64,"
                ++ Base64.encode imgBuffer)))
    (fun error =>
       console_error (js "Erro ao converter imagem: " ++ imgPath) ;;
       ret None).

(** [String(n)] for a count. *)
Definition decimal (n : nat) : jsstring :=
  js (DecimalString.NilZero.string_of_uint (Nat.to_uint n)).

(** What the program takes from its platform: the working directory of
    the process, the directory of the script ([__dirname]),
    [String.prototype.toUpperCase] and the Markdown parser [marked.parse]. *)
Section Program.
Variable cwd : jsstring.
Variable dirname : jsstring.
Variable toUpperCase : jsstring -> jsstring.
Variable marked_parse : jsstring -> jsstring.

Definition INPUT_DIR : jsstring := Path.resolve cwd [dirname; js "../markdown"].

Definition OUTPUT_DIR : jsstring := Path.resolve cwd [dirname; js "../output"].

(** [cleanOutputDir] *)
Definition cleanOutputDir : M unit :=
  tryCatch
    (present <- outdir_exists ;;
     if negb present then
       outdir_mkdir ;;
       console_log ([55357; 56513]%N ++ js " Pasta output criada: " ++ OUTPUT_DIR)
     else
       files <- outdir_readdir ;;
       let pdfFiles := filter (fun file => endsWith file (js ".pdf")) files in
       if (length pdfFiles =? 0)%nat then
         console_log
           ([55358; 56825]%N ++ js " Pasta output j" ++ [225]%N ++ js " est"
            ++ [225]%N ++ js " limpa (nenhum PDF encontrado)")
       else
         removedCount <-
           forEach
             (fun file removedCount =>
                tryCatch
                  (outdir_unlink file ;;
                   console_log
                     ([55357; 56785; 65039]%N ++ js "  Removido: " ++ file) ;;
                   ret (S removedCount))
                  (fun error =>
                     console_error
                       ([10060]%N ++ js " Erro ao remover " ++ file ++ js ": "
                        ++ error) ;;
                     ret removedCount))
             pdfFiles 0 ;;
         console_log
           ([55358; 56825]%N ++ js " Limpeza conclu" ++ [237]%N ++ js "da: "
            ++ decimal removedCount ++ js " arquivo(s) PDF removido(s)"))
    (fun error =>
       console_error
         ([10060]%N ++ js " Erro durante a limpeza da pasta output: " ++ error)).

(** [promptForFormat]: the menu, the question and the choice made from the
    line typed. *)
Definition promptForFormat : M PaperFormat :=
  console_log ([10; 55357; 56527]%N ++ js " Escolha o formato do papel:") ;;
  console_log (js "1. A2 (420" ++ [215]%N ++ js "594 mm) - Extra grande") ;;
  console_log (js "2. A3 (297" ++ [215]%N ++ js "420 mm) - Grande") ;;
  console_log
    (js "3. A4 (210" ++ [215]%N ++ js "297 mm) - Padr" ++ [227]%N ++ js "o") ;;
  console_log (js "4. A5 (148" ++ [215]%N ++ js "210 mm) - Compacto") ;;
  console_log [] ;;
  console_log
    (js "Digite o n" ++ [250]%N ++ js "mero da op" ++ [231; 227]%N
     ++ js "o (1-4) [padr" ++ [227]%N ++ js "o: 3]: ") ;;
  answer <- gets answer ;;
  let choice := match trim answer with [] => js "3" | t => t end in
  if str_eqb choice (js "1") then ret A2
  else if str_eqb choice (js "2") then ret A3
  else if str_eqb choice (js "3") then ret A4
  else if str_eqb choice (js "4") then ret A5
  else
    console_log
      ([9888; 65039]%N ++ js "  Op" ++ [231; 227]%N ++ js "o inv" ++ [225]%N
       ++ js "lida. Usando A4 como padr" ++ [227]%N ++ js "o.") ;;
    ret A4.

(** [showHelp] *)
Definition showHelp : M unit :=
  console_log
    (js "
"
  ++ [55357; 56534]%N
  ++ js " Conversor de Markdown para PDF

Uso:
  pnpm start [--format=FORMATO]

Formatos dispon"
  ++ [237]%N
  ++ js "veis:
  A2    "
  ++ description (formatConfigs A2)
  ++ js "
  A3    "
  ++ description (formatConfigs A3)
  ++ js "
  A4    "
  ++ description (formatConfigs A4)
  ++ js "
  A5    "
  ++ description (formatConfigs A5)
  ++ js "

Exemplos:
  pnpm start                  # Prompt interativo
  pnpm start --format=A4      # Formato A4 direto
  pnpm start --format=A2      # Formato A2 direto

Scripts pr"
  ++ [233]%N
  ++ js "-configurados:
  pnpm run pdf:a2   # Gerar em formato A2
  pnpm run pdf:a3   # Gerar em formato A3
  pnpm run pdf:a4   # Gerar em formato A4
  pnpm run pdf:a5   # Gerar em formato A5
").

(** The regular expression of the image inliner:
    [/!\[.*?\]\((\.\/.*?\.(png|jpg|jpeg|gif|svg))\)/g] *)
Definition imageExtensions : list jsstring :=
  [js "png"; js "jpg"; js "jpeg"; js "gif"; js "svg"].

Definition imageRegex : regex :=
  Seq (Lit (js "![")) (Seq (LazyStar CAny) (Seq (Lit (js "]("))
    (Seq (Group 1
            (Seq (Lit (js "./")) (Seq (LazyStar CAny) (Seq (Lit (js "."))
               (Group 2
                  (Alt (Lit (js "png")) (Alt (Lit (js "jpg"))
                    (Alt (Lit (js "jpeg")) (Alt (Lit (js "gif"))
                      (Lit (js "svg")))))))))))
         (Lit (js ")"))))).

(** The regular expression of the file-name derivation: [/\.md$/] *)
Definition mdRegex : regex := Seq (Lit (js ".md")) Eos.

(** [String.prototype.replace] with a global regular expression and a
    function: the matches are found first, then the function is called on
    each, from left to right, and the pieces are put together. *)
Definition replaceAll (r : regex) (fn : jsstring -> captures -> M jsstring)
    (s : jsstring) : M jsstring :=
  let (ms, tail) := matchAll r s in
  out <- forEach
           (fun m acc =>
              replacement <- fn (matched m) (groups m) ;;
              ret (acc ++ before m ++ replacement))
           ms [] ;;
  ret (out ++ tail).

(** [String.prototype.replace] with a regular expression that is not
    global and has no group, and a replacement text. *)
Definition replaceFirst (r : regex) (repl s : jsstring) : jsstring :=
  match exec r s with
  | Some m =>
      before m ++ getSubstitution (matched m) (before m) (after m) repl
      ++ after m
  | None => s
  end.

(** The name of the PDF written for [fileName]. *)
Definition outputFileName (fileName : jsstring) (format : PaperFormat)
  : jsstring :=
  replaceFirst mdRegex
    (js "." ++ toLowerCase (formatName format) ++ js ".pdf") fileName.

(** The two directives of the [@page] rule. *)
Definition pageSizeDirective (format : PaperFormat) : jsstring :=
  js "size: " ++ formatName format ++ js " portrait;".

Definition marginDirective (config : FormatConfig) : jsstring :=
  js "margin: " ++ margin config ++ js ";".

Definition isA5 (format : PaperFormat) : bool :=
  str_eqb (formatName format) (js "A5").

(** The HTML document handed to the browser: the template of
    [convertMarkdownToPdf] around the parsed Markdown, cut in three: what
    stands before the [@page] rule, the rule, and what follows it. *)
Definition htmlHead (format : PaperFormat) : jsstring :=
  js "
    <html>
      <head>
        <meta charset="
  ++ [34]%N
  ++ js "UTF-8"
  ++ [34]%N
  ++ js ">
        <style>
          /* Configura"
  ++ [231; 245]%N
  ++ js "es para formato "
  ++ formatName format
  ++ js " retrato */
          ".

Definition pageRule (format : PaperFormat) : jsstring :=
  js "@page {
            "
  ++ pageSizeDirective format
  ++ js "
            "
  ++ marginDirective (formatConfigs format)
  ++ js "
          }".

Definition htmlTail (format : PaperFormat) (htmlContent : jsstring)
  : jsstring :=
  let config := formatConfigs format in
  js "
          
          body { 
            font-family: 'Segoe UI', Tahoma, Geneva, Verdana, sans-serif; 
            line-height: 1.6;
            color: #333;
            font-size: "
  ++ fontSize config
  ++ js ";
            padding: 0;
            margin: 0;
            max-width: none;
          }
          
          /* T"
  ++ [237]%N
  ++ js "tulos com quebras de p"
  ++ [225]%N
  ++ js "gina controladas */
          h1, h2, h3, h4, h5, h6 { 
            page-break-after: avoid;
            color: #2c3e50;
            margin-top: 1.5em;
            margin-bottom: 0.8em;
            line-height: 1.3;
          }
          
          h1 { 
            font-size: 2.8em; 
            border-bottom: 3px solid #3498db; 
            padding-bottom: 10px;
            margin-bottom: 1.2em;
            page-break-before: auto;
          }
          
          h2 { 
            font-size: 2.2em; 
            color: #3498db; 
            border-bottom: 2px solid #ecf0f1;
            padding-bottom: 8px;
            page-break-before: avoid;
          }
          
          h3 { 
            font-size: 1.8em; 
            color: #34495e;
            page-break-before: avoid;
          }
          
          h4 { 
            font-size: 1.4em; 
            color: #7f8c8d;
          }
          
          /* Par"
  ++ [225]%N
  ++ js "grafos */
          p {
            margin: 1em 0;
            text-align: justify;
          }
          
          /* C"
  ++ [243]%N
  ++ js "digo com melhor formata"
  ++ [231; 227]%N
  ++ js "o */
          pre { 
            background: #2c3e50; 
            color: #ecf0f1;
            padding: 20px; 
            overflow-x: auto; 
            border-radius: 5px;
            margin: 1.5em 0;
            font-family: 'Courier New', Monaco, monospace;
            font-size: "
  ++ (if isA5 format then js "10px" else js "12px")
  ++ js ";
            line-height: 1.4;
            page-break-inside: avoid;
            box-shadow: 0 2px 8px rgba(0,0,0,0.1);
          }
          
          code { 
            background: #ecf0f1; 
            padding: 3px 6px; 
            border-radius: 3px;
            font-family: 'Courier New', Monaco, monospace;
            color: #e74c3c;
            font-size: "
  ++ (if isA5 format then js "10px" else js "11px")
  ++ js ";
          }
          
          pre code {
            background: none;
            color: #ecf0f1;
            padding: 0;
            font-size: "
  ++ (if isA5 format then js "10px" else js "12px")
  ++ js ";
          }
          
          /* Imagens responsivas */
          img { 
            max-width: 100%;
            height: auto;
            display: block;
            margin: 1.5em auto;
            box-shadow: 0 4px 12px rgba(0,0,0,0.15);
            border-radius: 8px;
            page-break-inside: avoid;
          }
          
          /* Cita"
  ++ [231; 245]%N
  ++ js "es */
          blockquote {
            border-left: 4px solid #3498db;
            margin: 1.5em 0;
            font-style: italic;
            background: #f8f9fa;
            padding: 20px;
            border-radius: 0 8px 8px 0;
            font-size: "
  ++ fontSize config
  ++ js ";
            page-break-inside: avoid;
            box-shadow: 0 2px 6px rgba(0,0,0,0.1);
          }
          
          /* Tabelas */
          table {
            border-collapse: collapse;
            width: 100%;
            margin: 1.5em 0;
            font-size: "
  ++ (if isA5 format then js "10px" else js "11px")
  ++ js ";
            page-break-inside: avoid;
            box-shadow: 0 2px 8px rgba(0,0,0,0.1);
          }
          
          table th, table td {
            border: 1px solid #ddd;
            padding: "
  ++ (if isA5 format then js "8px 10px" else js "12px 15px")
  ++ js ";
            text-align: left;
            vertical-align: top;
          }
          
          table th {
            background: linear-gradient(135deg, #3498db, #2980b9);
            color: white;
            font-weight: bold;
            font-size: "
  ++ (if isA5 format then js "11px" else js "12px")
  ++ js ";
          }
          
          table tr:nth-child(even) {
            background-color: #f8f9fa;
          }
          
          table tr:hover {
            background-color: #e8f4f8;
          }
          
          /* Listas */
          ul, ol { 
            margin: 1em 0; 
            padding-left: 2em;
          }
          
          li { 
            margin: 0.5em 0;
            font-size: "
  ++ fontSize config
  ++ js ";
          }
          
          /* Links */
          a { 
            color: #3498db; 
            text-decoration: none;
            font-weight: 500;
          }
          
          a:hover { 
            text-decoration: underline; 
            color: #2980b9;
          }
          
          /* Quebras de p"
  ++ [225]%N
  ++ js "gina controladas */
          h1 {
            page-break-before: always;
          }
          
          h1:first-child {
            page-break-before: avoid;
          }
          
          h2, h3, h4, h5, h6 {
            page-break-after: avoid;
          }
          
          table, pre, blockquote {
            page-break-inside: avoid;
          }
          
          /* Estilo para elementos "
  ++ [243]%N
  ++ js "rf"
  ++ [227]%N
  ++ js "os e vi"
  ++ [250]%N
  ++ js "vas */
          p {
            orphans: 3;
            widows: 3;
          }
          
          /* Separadores */
          hr {
            border: none;
            height: 2px;
            background: linear-gradient(to right, #3498db, #2980b9);
            margin: 2em 0;
            page-break-after: avoid;
          }
        </style>
      </head>
      <body>
        "
  ++ htmlContent
  ++ js "
      </body>
    </html>
  ".

Definition composeHtml (format : PaperFormat) (htmlContent : jsstring)
  : jsstring :=
  htmlHead format ++ pageRule format ++ htmlTail format htmlContent.

(** The options of the [page.pdf] call. *)
Definition pdfOptions (outputPath : jsstring) (format : PaperFormat)
  : PdfOptions :=
  let config := formatConfigs format in
  {| pdf_path := outputPath;
     pdf_format := formatName format;
     pdf_landscape := false;
     pdf_printBackground := true;
     pdf_margin_top := margin config;
     pdf_margin_bottom := margin config;
     pdf_margin_left := margin config;
     pdf_margin_right := margin config;
     pdf_preferCSSPageSize := true;
     pdf_displayHeaderFooter := false |}.

(** [getFormatFromArgs] *)
Definition getFormatFromArgs : M (option PaperFormat) :=
  argv <- gets argv ;;
  let args := drop 2 argv in
  match find (fun arg => startsWith arg (js "--format=")) args with
  | Some formatArg =>
      let format := toUpperCase <$> (split 61 formatArg !! 1) in
      match format ≫= formatOfString with
      | Some f => ret (Some f)
      | None =>
          console_log
            ([9888; 65039]%N ++ js "  Formato '"
             ++ default (js "undefined") format
             ++ js "' inv" ++ [225]%N ++ js "lido. Formatos dispon" ++ [237]%N
             ++ js "veis: A2, A3, A4, A5") ;;
          ret None
      end
  | None => ret None
  end.

(** The function given to [markdown.replace]: the image of one reference
    is read and put in place of its path. *)
Definition inlineImage (matched : jsstring) (groups : captures) : M jsstring :=
  let imgPath := default [] (getcap 1 groups) in
  let absolutePath := Path.resolve cwd [INPUT_DIR; imgPath] in
  base64 <- imageToBase64 absolutePath ;;
  match base64 with
  | Some ((_ :: _) as base64) => ret (replaceString matched imgPath base64)
  | _ => ret matched
  end.

(** The image inliner: [markdown.replace(regex, ...)]. *)
Definition inlineImages (markdown : jsstring) : M jsstring :=
  replaceAll imageRegex inlineImage markdown.

(** [convertMarkdownToPdf] *)
Definition convertMarkdownToPdf (fileName : jsstring) (format : PaperFormat)
  : M unit :=
  let inputPath := Path.join [INPUT_DIR; fileName] in
  let outputFileName := outputFileName fileName format in
  let outputPath := Path.join [OUTPUT_DIR; outputFileName] in
  present <- existsSync inputPath ;;
  if negb present then
    console_error (js "Arquivo n" ++ [227]%N ++ js "o encontrado: " ++ inputPath)
  else
    let config := formatConfigs format in
    markdown <- readFileSync_utf8 inputPath ;;
    markdown <- inlineImages markdown ;;
    let htmlContent := marked_parse markdown in
    let html := composeHtml format htmlContent in
    browser_launch ;;
    browser_newPage ;;
    page_setContent html ;;
    page_pdf outputFileName html (pdfOptions outputPath format) ;;
    browser_close ;;
    console_log
      ([9989]%N ++ js " PDF gerado em formato " ++ formatName format ++ js ": "
       ++ outputPath).

(** The format of the run: from the command line, else from the prompt. *)
Definition selectFormat : M PaperFormat :=
  format <- getFormatFromArgs ;;
  match format with
  | Some format => ret format
  | None => promptForFormat
  end.

(** [fs.readdirSync(INPUT_DIR)] *)
Definition indir_readdir : M (list jsstring) :=
  d <- gets indir ;;
  match d with
  | Some names => ret names
  | None => throw (js "ENOENT: " ++ INPUT_DIR)
  end.

(** The main function. *)
Definition main : M unit :=
  console_log ([55357; 56960]%N ++ js " Conversor de Markdown para PDF" ++ [10]%N) ;;
  argv <- gets argv ;;
  if bool_decide (js "--help" ∈ argv) || bool_decide (js "-h" ∈ argv) then
    showHelp
  else
    format <- selectFormat ;;
    console_log
      ([55357; 56527]%N ++ js " Formato selecionado: " ++ formatName format
       ++ js " (" ++ description (formatConfigs format) ++ js ")" ++ [10]%N) ;;
    console_log ([55357; 56523]%N ++ js " Etapa 1: Limpando pasta output") ;;
    cleanOutputDir ;;
    console_log [] ;;
    console_log ([55357; 56523]%N ++ js " Etapa 2: Buscando arquivos Markdown") ;;
    names <- indir_readdir ;;
    let files := filter (fun file => endsWith file (js ".md")) names in
    if (length files =? 0)%nat then
      console_log
        ([10060]%N ++ js " Nenhum arquivo .md encontrado para converter.")
    else
      console_log
        ([55357; 56516]%N ++ js " Encontrados " ++ decimal (length files)
         ++ js " arquivo(s) para convers" ++ [227]%N ++ js "o:") ;;
      forEach
        (fun file (_ : unit) =>
           console_log (js "   " ++ [8226]%N ++ js " " ++ file))
        files tt ;;
      console_log [] ;;
      console_log ([55357; 56523]%N ++ js " Etapa 3: Convertendo arquivos") ;;
      forEach
        (fun file (_ : unit) =>
           console_log ([55357; 56580]%N ++ js " Processando: " ++ file) ;;
           convertMarkdownToPdf file format)
        files tt ;;
      console_log [] ;;
      console_log
        ([55356; 57225]%N ++ js " Convers" ++ [227]%N ++ js "o conclu" ++ [237]%N
         ++ js "da com sucesso!").

End Program.

(** [toUpperCase] on the code units of ASCII, for running the program on
    ASCII command lines. *)
Definition asciiUpperCase (s : jsstring) : jsstring :=
  map (fun c => if (97 <=? c)%N && (c <=? 122)%N then (c - 32)%N else c) s.

(** ** The vocabulary of the properties *)

Definition noLineTerminator (s : jsstring) : Prop :=
  forallb (cset_mem CAny) s = true.

(** [alt] and [path] are the two parts of a reference the inliner matches,
    and [ext] is the extension its path ends in. *)
Definition imageReference (alt path ext : jsstring) : Prop :=
  noLineTerminator alt /\ (ext ∈ imageExtensions) /\
  exists mid, noLineTerminator mid /\ path = js "./" ++ mid ++ js "." ++ ext.

(** The text of the reference: [![alt](path)]. *)
Definition referenceText (alt path : jsstring) : jsstring :=
  js "![" ++ alt ++ js "](" ++ path ++ js ")".

(** What [fs.readFileSync(p)] returns in the world [w]; [None] when it
    throws. *)
Definition readImage (w : World) (p : jsstring) : option (list Byte.byte) :=
  match files w !! p with
  | Some f => if readable f then Some (bytes f) else None
  | None => None
  end.

Definition mediaType (ext : jsstring) : jsstring :=
  js "image/" ++ (if str_eqb ext (js "jpg") then js "jpeg" else ext).

Definition dataUri (mediaType payload : jsstring) : jsstring :=
  js "data:" ++ mediaType ++ js ";base64," ++ payload.

(** The file a reference with the path [imgPath] is read from. *)
Definition imageFile (cwd dirname imgPath : jsstring) : jsstring :=
  Path.resolve cwd [INPUT_DIR cwd dirname; imgPath].

Definition pathOf (m : MatchResult) : jsstring :=
  default [] (getcap 1 (groups m)).

(** The document put together from the texts returned for its matches. *)
Definition assemble (ms : list MatchResult) (texts : list jsstring)
    (tail : jsstring) : jsstring :=
  concat (zip_with (fun m t => before m ++ t) ms texts) ++ tail.

(** The line logged for a [--format=] argument that names no format. *)
Definition invalidFormatLine (format : option jsstring) : jsstring :=
  [9888; 65039]%N ++ js "  Formato '" ++ default (js "undefined") format
  ++ js "' inv" ++ [225]%N ++ js "lido. Formatos dispon" ++ [237]%N
  ++ js "veis: A2, A3, A4, A5".

(** What [fs.unlinkSync] leaves of a directory: the entry goes when it can
    be removed. *)
Definition unlinked (d : gmap (list N) bool) (name : jsstring)
  : gmap (list N) bool :=
  match d !! name with
  | Some true => delete name d
  | _ => d
  end.

(** What is left of an entry after an attempt to remove it. *)
Definition attempted (entry : option bool) : option bool :=
  match entry with
  | Some true => None
  | _ => entry
  end.

(** The text the inliner puts in place of the match [m] in the world [w]:
    the match with the data URI of its image at the first occurrence of its
    path, or the match itself when the image cannot be read. *)
Definition inlinedText (cwd dirname : jsstring) (w : World) (m : MatchResult)
  : jsstring :=
  match readImage w (imageFile cwd dirname (pathOf m)) with
  | Some bs =>
      replaceString (matched m) (pathOf m)
        (dataUri
           (mediaType (drop 1 (Path.extname (imageFile cwd dirname (pathOf m)))))
           (Base64.encode bs))
  | None => matched m
  end.

(** The lines logged for the matches whose image cannot be read. *)
Definition readFailures (cwd dirname : jsstring) (w : World)
    (ms : list MatchResult) : list (stream * jsstring) :=
  concat
    (map
       (fun m =>
          match readImage w (imageFile cwd dirname (pathOf m)) with
          | Some _ => []
          | None =>
              [(Stderr, js "Erro ao converter imagem: "
                        ++ imageFile cwd dirname (pathOf m))]
          end)
       ms).

(** What a sweep leaves of the entries of the output directory: all but
    the [.pdf] entries that can be removed. *)
Definition sweptDir (d : gmap (list N) bool) : gmap (list N) bool :=
  filter (fun entry => negb (endsWith entry.1 (js ".pdf") && entry.2)) d.

(** Whether the cleanup fails as a whole: the directory is absent and
    cannot be made, or is there and cannot be listed. *)
Definition cleanupFails (w : World) : bool :=
  match outdir w with
  | Some _ => outfault w ListDirectory
  | None => outfault w MakeDirectory
  end.

(** The output directory after the cleanup: made when it was absent, swept
    when it was there, and left as it was when the cleanup fails. *)
Definition cleaned (w : World) : option (gmap (list N) bool) :=
  if cleanupFails w then outdir w
  else
    match outdir w with
    | Some d => Some (sweptDir d)
    | None => Some ∅
    end.

(** The [.pdf] names a directory lists, and those of some names whose
    entry can be removed. *)
Definition pdfNames (d : gmap (list N) bool) : list jsstring :=
  filter (fun file => endsWith file (js ".pdf")) (map fst (map_to_list d)).

Definition removable (d : gmap (list N) bool) (names : list jsstring)
  : list jsstring :=
  filter (fun name => d !! name = Some true) names.

(** The last line the cleanup logs. *)
Definition cleanupReport (cwd dirname : jsstring)
    (d : option (gmap (list N) bool)) : jsstring :=
  match d with
  | None =>
      [55357; 56513]%N ++ js " Pasta output criada: " ++ OUTPUT_DIR cwd dirname
  | Some d =>
      match pdfNames d with
      | [] =>
          [55358; 56825]%N ++ js " Pasta output j" ++ [225]%N ++ js " est"
          ++ [225]%N ++ js " limpa (nenhum PDF encontrado)"
      | _ :: _ =>
          [55358; 56825]%N ++ js " Limpeza conclu" ++ [237]%N ++ js "da: "
          ++ decimal (length (removable d (pdfNames d)))
          ++ js " arquivo(s) PDF removido(s)"
      end
  end.

(** The line the cleanup logs when it fails as a whole. *)
Definition cleanupError (error : jsstring) : jsstring :=
  [10060]%N ++ js " Erro durante a limpeza da pasta output: " ++ error.

(** The world [w] with another console, output directory and record of the
    browser. *)
Definition afterRun (w : World) (c : list (stream * jsstring))
    (d : option (gmap (list N) bool)) (l cl : nat)
    (p : list (jsstring * PdfOptions)) : World :=
  {| argv := argv w; answer := answer w; console := c; files := files w;
     indir := indir w; outdir := d; launched := l; closed := cl;
     printed := p; fault := fault w;
     outfault := outfault w; closedOnFailure := closedOnFailure w |}.

(** The world [w] started with another command line. *)
Definition set_argv (a : list jsstring) (w : World) : World :=
  {| argv := a; answer := answer w; console := console w; files := files w;
     indir := indir w; outdir := outdir w; launched := launched w;
     closed := closed w; printed := printed w; fault := fault w;
     outfault := outfault w; closedOnFailure := closedOnFailure w |}.

(** The document of the input directory with the name [name]. *)
Definition documentAt (cwd dirname : jsstring) (w : World) (name : jsstring)
  : option File :=
  files w !! Path.join [INPUT_DIR cwd dirname; name].

(** A document that can be read when it is there. *)
Definition legible (cwd dirname : jsstring) (w : World) (name : jsstring)
  : Prop :=
  match documentAt cwd dirname w name with
  | Some f => readable f = true
  | None => True
  end.

(** The names whose document is there. *)
Definition existing (cwd dirname : jsstring) (w : World)
    (names : list jsstring) : list jsstring :=
  filter (fun name => is_Some (documentAt cwd dirname w name)) names.

(** The names the run looks at: those of the input directory that end in
    [.md]. *)
Definition markdownFiles (names : list jsstring) : list jsstring :=
  filter (fun file => endsWith file (js ".md")) names.

(** The path of the PDF written for the document [name]. *)
Definition outputPath (cwd dirname : jsstring) (format : PaperFormat)
    (name : jsstring) : jsstring :=
  Path.join [OUTPUT_DIR cwd dirname; outputFileName name format].

(** The output directory [d] with the PDFs of the documents [names]. *)
Definition written (format : PaperFormat) (d : gmap (list N) bool)
    (names : list jsstring) : gmap (list N) bool :=
  foldl (fun d name => <[outputFileName name format := true]> d) d names.

(** Two worlds with the same command line, typed line, files, input
    directory and failing operations. *)
Definition sameInputs (w w' : World) : Prop :=
  argv w' = argv w /\ answer w' = answer w /\ files w' = files w
  /\ indir w' = indir w /\ fault w' = fault w /\ outfault w' = outfault w
  /\ closedOnFailure w' = closedOnFailure w.

(** The banner of the program and the text of its help, as [--help] shows
    them. *)
Definition bannerLine : jsstring :=
  [55357; 56960]%N ++ js " Conversor de Markdown para PDF" ++ [10]%N.

Definition helpText : jsstring :=
  [10]%N
  ++ concat
       (map (fun line => line ++ [10]%N)
          [[55357; 56534]%N ++ js " Conversor de Markdown para PDF";
           [];
           js "Uso:";
           js "  pnpm start [--format=FORMATO]";
           [];
           js "Formatos dispon" ++ [237]%N ++ js "veis:";
           js "  A2    A2 (420" ++ [215]%N ++ js "594 mm) - Extra grande";
           js "  A3    A3 (297" ++ [215]%N ++ js "420 mm) - Grande";
           js "  A4    A4 (210" ++ [215]%N ++ js "297 mm) - Padr" ++ [227]%N
           ++ js "o";
           js "  A5    A5 (148" ++ [215]%N ++ js "210 mm) - Compacto";
           [];
           js "Exemplos:";
           js "  pnpm start                  # Prompt interativo";
           js "  pnpm start --format=A4      # Formato A4 direto";
           js "  pnpm start --format=A2      # Formato A2 direto";
           [];
           js "Scripts pr" ++ [233]%N ++ js "-configurados:";
           js "  pnpm run pdf:a2   # Gerar em formato A2";
           js "  pnpm run pdf:a3   # Gerar em formato A3";
           js "  pnpm run pdf:a4   # Gerar em formato A4";
           js "  pnpm run pdf:a5   # Gerar em formato A5"]).

(** The warning of the prompt. *)
Definition promptWarning : jsstring :=
  [9888; 65039]%N ++ js "  Op" ++ [231; 227]%N ++ js "o inv" ++ [225]%N
  ++ js "lida. Usando A4 como padr" ++ [227]%N ++ js "o.".

(** ** A world to run the program in *)

Module Example.

Definition cwd : jsstring := js "/app".

Definition dirname : jsstring := js "/app/src".

(** An image of three bytes, the text [Man]. *)
Definition image : File :=
  {| readable := true; bytes := [Byte.x4d; Byte.x61; Byte.x6e]; text := [] |}.

Definition document (content : jsstring) : File :=
  {| readable := true; bytes := []; text := content |}.

Definition world : World :=
  {| argv := [js "node"; js "index.js"];
     answer := [];
     console := [];
     files :=
       {[ js "/app/markdown/a.png" := image;
          js "/app/markdown/.png" := image;
          js "/app/markdown/x.png](./x.png" := image;
          js "/app/markdown/doc.md" := document (js "![x](./a.png)") ]};
     indir := Some [js "doc.md"];
     outdir := Some ∅;
     launched := 0;
     closed := 0;
     printed := [];
     fault := fun _ => false;
     outfault := fun _ => false; closedOnFailure := false |}.

Definition inline (markdown : jsstring) : outcome jsstring :=
  (inlineImages cwd dirname markdown world).1.

End Example.

(** Worlds with a directory of documents and the PDFs of an earlier run. *)
Module Batch.

Definition world : World :=
  {| argv := [js "node"; js "index.js"; js "--format=a5"];
     answer := [];
     console := [];
     files :=
       {[ js "/app/markdown/a.md" := Example.document (js "# A");
          js "/app/markdown/b.md" := Example.document (js "![x](./a.png)");
          js "/app/markdown/a.png" := Example.image ]};
     indir := Some [js "a.md"; js "a.png"; js "gone.md"; js "b.md"];
     outdir :=
       Some {[ js "old.a4.pdf" := true; js "locked.pdf" := false;
               js "notes.txt" := true ]};
     launched := 0;
     closed := 0;
     printed := [];
     fault := fun _ => false;
     outfault := fun _ => false; closedOnFailure := false |}.

(** The same with a second document that cannot be read. *)
Definition broken : World :=
  {| argv := argv world;
     answer := [];
     console := [];
     files :=
       {[ js "/app/markdown/a.md" := Example.document (js "# A");
          js "/app/markdown/b.md" :=
            {| readable := false; bytes := []; text := [] |};
          js "/app/markdown/c.md" := Example.document (js "# C") ]};
     indir := Some [js "a.md"; js "b.md"; js "c.md"];
     outdir := outdir world;
     launched := 0;
     closed := 0;
     printed := [];
     fault := fun _ => false;
     outfault := fun _ => false; closedOnFailure := false |}.

End Batch.

(** * Properties *)

(** ** The string operations *)

Module JsFacts.

Lemma js_app (a b : string) : js (a ++ b)%string = js a ++ js b.
Proof.
  unfold js. induction a as [|c a IH]; simpl; [reflexivity|].
  now rewrite IH.
Qed.

Lemma str_eqb_eq (a b : jsstring) : str_eqb a b = true <-> a = b.
Proof.
  revert b. induction a as [|x a IH]; intros [|y b]; simpl; try easy.
  rewrite andb_true_iff, N.eqb_eq, IH. split.
  - intros [-> ->]. reflexivity.
  - intros [= -> ->]. easy.
Qed.

Lemma startsWith_spec (s p : jsstring) :
  startsWith s p = true <-> exists t, s = p ++ t.
Proof.
  revert s. induction p as [|x p IH]; intros s; simpl.
  - split; [intros _; now exists s | easy].
  - destruct s as [|y s].
    + split; [easy | intros [t Ht]; discriminate].
    + rewrite andb_true_iff, N.eqb_eq, IH. split.
      * intros [-> [t ->]]. now exists t.
      * intros [t [= -> ->]]. split; [easy | now exists t].
Qed.

Lemma startsWith_app (p t : jsstring) : startsWith (p ++ t) p = true.
Proof. apply startsWith_spec. now exists t. Qed.

Lemma endsWith_spec (s p : jsstring) :
  endsWith s p = true <-> exists t, s = t ++ p.
Proof.
  unfold endsWith. rewrite startsWith_spec. split.
  - intros [t Ht]. exists (rev t).
    rewrite <- (rev_involutive s), Ht, rev_app_distr, rev_involutive.
    reflexivity.
  - intros [t ->]. exists (rev t). now rewrite rev_app_distr.
Qed.

(** [indexOf] finds the leftmost occurrence: the pattern does not start at
    any earlier position. *)
Lemma indexOf_Some (s pat before after : jsstring) :
  indexOf s pat = Some (before, after) ->
  s = before ++ pat ++ after /\
  forall i, i < length before -> startsWith (drop i s) pat = false.
Proof.
  revert before after. induction s as [|c s IH]; intros before after; simpl.
  - destruct (startsWith [] pat) eqn:E; [|easy].
    intros [= <- <-]. apply startsWith_spec in E as [t Ht].
    symmetry in Ht. apply app_eq_nil in Ht as [-> ->].
    split; [reflexivity | simpl; lia].
  - destruct (startsWith (c :: s) pat) eqn:E.
    + intros [= <- <-]. apply startsWith_spec in E as [t Ht].
      split; [|simpl; lia]. simpl. rewrite Ht at 1.
      f_equal. rewrite Ht, drop_app_length. reflexivity.
    + destruct (indexOf s pat) as [[b a]|] eqn:E'; [|easy].
      intros [= <- <-]. destruct (IH b a eq_refl) as [-> Hmin].
      split; [reflexivity|]. intros [|i] Hi; [exact E|].
      simpl. apply Hmin. simpl in Hi. lia.
Qed.

Lemma indexOf_None (s pat : jsstring) :
  indexOf s pat = None -> forall a b, s <> a ++ pat ++ b.
Proof.
  induction s as [|c s IH]; simpl.
  - destruct (startsWith [] pat) eqn:E; [easy|]. intros _ a b H.
    symmetry in H. apply app_eq_nil in H as [-> H].
    apply app_eq_nil in H as [-> _]. discriminate.
  - destruct (startsWith (c :: s) pat) eqn:E; [easy|].
    destruct (indexOf s pat) as [[b' a']|] eqn:E'; [easy|].
    intros _ [|x a] b H.
    + simpl in H. rewrite H, startsWith_app in E. discriminate.
    + injection H as -> H. now apply (IH eq_refl a b).
Qed.

Lemma startsWith_length (s pat : jsstring) :
  startsWith s pat = true -> length pat <= length s.
Proof.
  intros H. apply startsWith_spec in H as [t ->]. rewrite length_app. lia.
Qed.

Lemma startsWith_app_false (s pat t : jsstring) :
  startsWith s pat = false -> length pat <= length s ->
  startsWith (s ++ t) pat = false.
Proof.
  revert s. induction pat as [|x pat IH]; intros s; simpl; [easy|].
  destruct s as [|y s]; simpl; [lia|].
  destruct (x =? y)%N; simpl; [|easy]. intros H Hl. apply IH; [exact H | lia].
Qed.

(** Text added after the first occurrence does not move it. *)
Lemma indexOf_app (s pat front back t : jsstring) :
  indexOf s pat = Some (front, back) ->
  indexOf (s ++ t) pat = Some (front, back ++ t).
Proof.
  revert front. induction s as [|c s IH]; intros front; simpl.
  - destruct (startsWith [] pat) eqn:E; [|easy]. intros [= <- <-].
    apply startsWith_spec in E as [u Hu]. symmetry in Hu.
    apply app_eq_nil in Hu as [-> _]. simpl. now destruct t.
  - destruct (startsWith (c :: s) pat) eqn:E.
    + intros [= <- <-]. change (c :: s ++ t) with ((c :: s) ++ t).
      pose proof (startsWith_length _ _ E) as Hl.
      apply startsWith_spec in E as [u Hu]. rewrite Hu at 1.
      rewrite <- app_assoc, startsWith_app. now rewrite drop_app_le.
    + destruct (indexOf s pat) as [[b a]|] eqn:E'; [|easy].
      intros [= <- <-].
      assert (Hl : length pat <= length (c :: s)).
      { apply indexOf_Some in E' as [-> _]. simpl. rewrite !length_app. lia. }
      change (c :: s ++ t) with ((c :: s) ++ t).
      rewrite (startsWith_app_false _ _ t E Hl). simpl.
      now rewrite (IH b eq_refl).
Qed.

Lemma elem_of_rev (x : N) (l : jsstring) : x ∈ rev l <-> x ∈ l.
Proof. rewrite !list_elem_of_In. symmetry. apply in_rev. Qed.

(** A replacement text without a dollar sign is inserted as it is. *)
Lemma getSubstitution_plain (m b a repl : jsstring) :
  36%N ∉ repl -> getSubstitution m b a repl = repl.
Proof.
  induction repl as [|c r IH]; intros H; [reflexivity|].
  apply not_elem_of_cons in H as [Hc Hr]. simpl.
  destruct (N.eqb_spec c 36) as [->|_]; [congruence|].
  now rewrite IH.
Qed.

End JsFacts.
Export JsFacts.

(** ** The matcher and the language of an expression *)

Module RegexFacts.

Lemma take_app_rest (w s' : jsstring) :
  take (length (w ++ s') - length s') (w ++ s') = w.
Proof.
  rewrite length_app.
  replace (length w + length s' - length s') with (length w) by lia.
  apply take_app_length.
Qed.

Lemma lazyStar_sound {A} cs (k : jsstring -> option A) s x :
  lazyStar cs k s = Some x ->
  exists w s', s = w ++ s' /\ forallb (cset_mem cs) w = true /\ k s' = Some x.
Proof.
  induction s as [|c s IH]; simpl.
  - destruct (k []) eqn:E; [|easy]. intros [= ->]. now exists [], [].
  - destruct (k (c :: s)) eqn:E.
    + intros [= ->]. now exists [], (c :: s).
    + destruct (cset_mem cs c) eqn:Ec; [|easy]. intros H.
      destruct (IH H) as (w & s' & -> & Hw & Hk).
      exists (c :: w), s'. simpl. now rewrite Ec.
Qed.

(** Whatever the matcher accepts is in the language. *)
Lemma rmatch_sound {A} r : forall (k : jsstring -> captures -> option A) s caps x,
  rmatch r k s caps = Some x ->
  exists w s' caps',
    s = w ++ s' /\ matches r w s' caps caps' /\ k s' caps' = Some x.
Proof.
  induction r as [|cs|r1 IH1 r2 IH2|r1 IH1 r2 IH2|cs|i r IH|];
    intros k s caps x; simpl.
  - intros H. now exists [], s, caps.
  - destruct s as [|c s]; [easy|].
    destruct (cset_mem cs c) eqn:E; [|easy]. intros H.
    exists [c], s, caps. eauto 6.
  - intros H. apply IH1 in H as (w1 & s1 & c1 & -> & H1 & H).
    apply IH2 in H as (w2 & s2 & c2 & -> & H2 & H).
    exists (w1 ++ w2), s2, c2. rewrite <- app_assoc. eauto 10.
  - destruct (rmatch r1 k s caps) eqn:E.
    + intros [= ->]. apply IH1 in E as (w & s' & c' & -> & H & Hk). eauto 10.
    + intros H. apply IH2 in H as (w & s' & c' & -> & H & Hk). eauto 10.
  - intros H. apply lazyStar_sound in H as (w & s' & -> & Hw & Hk).
    exists w, s', caps. eauto.
  - intros H. apply IH in H as (w & s' & c' & -> & H & Hk).
    rewrite take_app_rest in Hk. exists w, s', ((i, w) :: c'). eauto.
  - destruct s; [|easy]. intros H. now exists [], [], caps.
Qed.

Lemma lazyStar_complete {A} cs (k : jsstring -> option A) w s' :
  forallb (cset_mem cs) w = true -> k s' <> None ->
  lazyStar cs k (w ++ s') <> None.
Proof.
  intros Hw Hk. induction w as [|c w IH]; simpl.
  - destruct s'; simpl; destruct (k _); easy.
  - simpl in Hw. apply andb_true_iff in Hw as [Hc Hw].
    destruct (k (c :: w ++ s')); [easy|]. rewrite Hc. now apply IH.
Qed.

(** Whatever is in the language is accepted, if the continuation accepts
    what follows whatever the captures are. *)
Lemma rmatch_complete {A} r : forall (k : jsstring -> captures -> option A)
    w s' c0 c1 caps,
  matches r w s' c0 c1 -> (forall c, k s' c <> None) ->
  rmatch r k (w ++ s') caps <> None.
Proof.
  induction r as [|cs|r1 IH1 r2 IH2|r1 IH1 r2 IH2|cs|i r IH|];
    intros k w s' c0 c1 caps; simpl.
  - intros [-> _] Hk. apply Hk.
  - intros (c & -> & Hc & _) Hk. simpl. rewrite Hc. apply Hk.
  - intros (w1 & w2 & cm & -> & H1 & H2) Hk. rewrite <- app_assoc.
    eapply IH1; [exact H1|]. intros c. eapply IH2; eauto.
  - intros [H|H] Hk.
    + destruct (rmatch r1 k (w ++ s') caps) eqn:E; [easy|].
      exfalso. eapply IH1; eauto.
    + destruct (rmatch r1 k (w ++ s') caps) eqn:E; [easy|].
      eapply IH2; eauto.
  - intros [Hw _] Hk. apply lazyStar_complete; [exact Hw | apply Hk].
  - intros (cm & H & _) Hk. eapply IH; [exact H|]. intros c. apply Hk.
  - intros (-> & -> & _) Hk. apply Hk.
Qed.

Lemma Lit_matches (s w rest : jsstring) (caps caps' : captures) :
  matches (Lit s) w rest caps caps' <-> w = s /\ caps' = caps.
Proof.
  revert w. induction s as [|c s IH]; intros w; simpl; [tauto|]. split.
  - intros (w1 & w2 & caps1 & -> & (x & -> & Hx & ->) & H).
    apply N.eqb_eq in Hx as ->. apply IH in H as [-> ->]. easy.
  - intros [-> ->]. exists [c], s, caps. split; [reflexivity|]. split.
    + exists c. rewrite N.eqb_refl. easy.
    + now apply IH.
Qed.

Lemma Seq_Lit_matches (s : jsstring) (r : regex) (w rest : jsstring)
    (caps caps' : captures) :
  matches (Seq (Lit s) r) w rest caps caps' <->
  exists w2, w = s ++ w2 /\ matches r w2 rest caps caps'.
Proof.
  simpl. split.
  - intros (w1 & w2 & caps1 & -> & H1 & H2).
    apply Lit_matches in H1 as [-> ->]. eauto.
  - intros (w2 & -> & H). exists s, w2, caps.
    rewrite Lit_matches. easy.
Qed.

Lemma matchHere_sound (r : regex) (s : jsstring) (m : MatchResult) :
  matchHere r s = Some m ->
  before m = [] /\ s = matched m ++ after m /\
  matches r (matched m) (after m) [] (groups m).
Proof.
  unfold matchHere. intros H.
  apply rmatch_sound in H as (w & s' & caps' & -> & Hm & [= <-]).
  simpl. rewrite take_app_rest. easy.
Qed.

Lemma matchHere_complete (r : regex) (w s' : jsstring) (c0 c1 : captures) :
  matches r w s' c0 c1 -> matchHere r (w ++ s') <> None.
Proof.
  intros H. unfold matchHere. eapply rmatch_complete; [exact H | easy].
Qed.

(** A match found by [exec] is a match of the expression, and the three
    parts of the result make up the text searched. *)
Lemma exec_sound (r : regex) (s : jsstring) (m : MatchResult) :
  exec r s = Some m ->
  s = before m ++ matched m ++ after m /\
  matches r (matched m) (after m) [] (groups m).
Proof.
  revert m. induction s as [|c s IH]; intros m; simpl.
  - destruct (matchHere r []) eqn:E; [|easy]. intros [= ->].
    apply matchHere_sound in E as (-> & E & H). easy.
  - destruct (matchHere r (c :: s)) eqn:E.
    + intros [= ->]. apply matchHere_sound in E as (-> & E & H). easy.
    + destruct (exec r s) as [m'|]; [|easy]. intros [= <-]. simpl.
      destruct (IH m' eq_refl) as [-> H]. easy.
Qed.

(** When [exec] finds nothing, no part of the text matches. *)
Lemma exec_complete (r : regex) (s : jsstring) :
  exec r s = None ->
  forall pre w post c0 c1, s = pre ++ w ++ post -> ~ matches r w post c0 c1.
Proof.
  induction s as [|c s IH]; simpl; intros H pre w post c0 c1 Hs Hm.
  - destruct (matchHere r []) eqn:E; [easy|].
    symmetry in Hs. apply app_eq_nil in Hs as [-> Hs]. simpl in Hs.
    apply (matchHere_complete r w post c0 c1 Hm). now rewrite Hs.
  - destruct (matchHere r (c :: s)) eqn:E; [easy|].
    destruct pre as [|x pre]; simpl in Hs.
    + apply (matchHere_complete r w post c0 c1 Hm). now rewrite <- Hs.
    + injection Hs as -> Hs. destruct (exec r s); [easy|].
      now apply (IH eq_refl pre w post c0 c1).
Qed.

Lemma matchAll_fuel_spec (r : regex) (fuel : nat) : forall s ms tail,
  matchAll_fuel fuel r s = (ms, tail) ->
  s = pieces ms ++ tail /\ Forall (isMatch r) ms.
Proof.
  induction fuel as [|fuel IH]; intros s ms tail; simpl.
  - intros [= <- <-]. easy.
  - destruct (exec r s) as [m|] eqn:E; [|intros [= <- <-]; easy].
    apply exec_sound in E as [-> Hm].
    destruct (matched m) as [|x xs] eqn:Ex.
    + destruct (after m) as [|c rest] eqn:Ea.
      * intros [= <- <-]. unfold pieces. simpl. rewrite Ex, !app_nil_r.
        split; [reflexivity|]. constructor; [|constructor].
        unfold isMatch. now rewrite Ex, Ea.
      * destruct (matchAll_fuel fuel r rest) as [ms' tail'] eqn:E'.
        destruct (IH _ _ _ E') as [-> Hms]. assert (Hm' : isMatch r m).
        { unfold isMatch. now rewrite Ex, Ea. }
        destruct ms' as [|m' ms'']; intros [= <- <-]; unfold pieces; simpl.
        -- rewrite Ex, !app_nil_r. split; [reflexivity|]. now constructor.
        -- rewrite Ex. split.
           ++ rewrite !app_nil_r, <- !app_assoc. simpl.
              now rewrite <- !app_assoc.
           ++ constructor; [exact Hm'|]. inversion Hms; subst.
              constructor; assumption.
    + destruct (matchAll_fuel fuel r (after m)) as [ms' tail'] eqn:E'.
      destruct (IH _ _ _ E') as [Ha Hms]. intros [= <- <-].
      unfold pieces. simpl. rewrite Ex. split.
      * rewrite Ha at 1. unfold pieces. now rewrite <- !app_assoc.
      * constructor; [|exact Hms]. unfold isMatch. now rewrite Ex.
Qed.

Lemma matchAll_spec (r : regex) (s : jsstring) (ms : list MatchResult)
    (tail : jsstring) :
  matchAll r s = (ms, tail) ->
  s = pieces ms ++ tail /\ Forall (isMatch r) ms.
Proof. apply matchAll_fuel_spec. Qed.

Lemma matchAll_none (r : regex) (s : jsstring) :
  exec r s = None -> matchAll r s = ([], s).
Proof. unfold matchAll. simpl. now intros ->. Qed.

End RegexFacts.
Export RegexFacts.

(** ** The last component of a resolved path *)

Module PathFacts.
Import Path.

Lemma split_nonempty (sep : N) (s : jsstring) : split sep s <> [].
Proof.
  destruct s as [|c s]; simpl; [easy|].
  destruct (c =? sep)%N; [easy|]. now destruct (split sep s).
Qed.

Lemma split_app_sep (sep : N) (a b : jsstring) :
  split sep (a ++ sep :: b) = split sep a ++ split sep b.
Proof.
  induction a as [|c a IH]; simpl.
  - now rewrite N.eqb_refl.
  - destruct (c =? sep)%N; [now rewrite IH|]. rewrite IH.
    pose proof (split_nonempty sep a). now destruct (split sep a).
Qed.

Lemma split_no_sep (sep : N) (s : jsstring) : sep ∉ s -> split sep s = [s].
Proof.
  induction s as [|c s IH]; intros H; [reflexivity|].
  apply not_elem_of_cons in H as [Hc Hs]. simpl.
  destruct (N.eqb_spec c sep) as [->|_]; [easy|]. now rewrite IH.
Qed.

Lemma split_directoryPart (p seg : jsstring) :
  directoryPart p -> slash ∉ seg ->
  exists segs, split slash (p ++ seg) = segs ++ [seg].
Proof.
  intros [->|[q ->]] H.
  - exists []. now apply split_no_sep.
  - exists (split slash q).
    rewrite <- app_assoc. simpl.
    now rewrite (split_app_sep slash q seg), (split_no_sep slash seg).
Qed.

(** Every path is a directory part followed by a last segment. *)
Lemma path_decompose (p : jsstring) :
  exists d seg, p = d ++ seg /\ directoryPart d /\ (slash ∉ seg).
Proof.
  induction p as [|c p (d & seg & -> & Hd & Hs)].
  - exists [], []. split; [easy|]. split; [now left | apply not_elem_of_nil].
  - destruct (N.eqb_spec c slash) as [->|Hc].
    + destruct Hd as [->|[q ->]].
      * exists [slash], seg. split; [easy|]. split; [|easy].
        right. now exists [].
      * exists (slash :: q ++ [slash]), seg. split; [easy|]. split; [|easy].
        right. now exists (slash :: q).
    + destruct Hd as [->|[q ->]].
      * exists [], (c :: seg). split; [easy|]. split; [now left|].
        now apply not_elem_of_cons.
      * exists (c :: q ++ [slash]), seg. split; [easy|]. split; [|easy].
        right. now exists (c :: q).
Qed.

Lemma normalizeSegments_app (allow : bool) (l1 l2 stack : list jsstring) :
  normalizeSegments allow (l1 ++ l2) stack =
  normalizeSegments allow l2 (normalizeSegments allow l1 stack).
Proof.
  revert stack. induction l1 as [|seg l1 IH]; intros stack; [reflexivity|].
  simpl. destruct (str_eqb seg [] || is_dot seg); [apply IH|].
  destruct (is_dotdot seg); [|apply IH].
  destruct stack as [|top stack]; [apply IH|].
  destruct (is_dotdot top); apply IH.
Qed.

Lemma normalizeSegments_plain (allow : bool) (seg : jsstring)
    (stack : list jsstring) :
  plainSegment seg ->
  normalizeSegments allow [seg; []] stack = seg :: stack.
Proof.
  intros (_ & H0 & H1 & H2). simpl. unfold is_dot, is_dotdot.
  destruct (str_eqb seg []) eqn:E0; [now apply str_eqb_eq in E0|].
  destruct (str_eqb seg [dot]) eqn:E1; [now apply str_eqb_eq in E1|].
  destruct (str_eqb seg [dot; dot]) eqn:E2; [now apply str_eqb_eq in E2|].
  reflexivity.
Qed.

Lemma joinSegments_snoc (segs : list jsstring) (seg : jsstring) :
  exists d, directoryPart d /\ joinSegments (segs ++ [seg]) = d ++ seg.
Proof.
  induction segs as [|s segs (d & Hd & IH)].
  - exists []. split; [now left | reflexivity].
  - exists (s ++ slash :: d). split.
    + right. destruct Hd as [->|[q ->]].
      * now exists s.
      * exists (s ++ slash :: q). now rewrite <- app_assoc.
    + change (joinSegments ((s :: segs) ++ [seg]))
        with (joinSegments (s :: (segs ++ [seg]))).
      destruct (segs ++ [seg]) as [|x l] eqn:E.
      * now destruct segs.
      * change (joinSegments (s :: x :: l))
          with (s ++ slash :: joinSegments (x :: l)).
        now rewrite IH, <- app_assoc.
Qed.

(** Normalizing a path that ends with a plain segment and a slash keeps
    the segment at the end. *)
Lemma normalizeString_plain (allow : bool) (d seg : jsstring) :
  directoryPart d -> plainSegment seg ->
  exists d', directoryPart d' /\
    normalizeString (d ++ seg ++ [slash]) allow = d' ++ seg.
Proof.
  intros Hd Hseg. unfold normalizeString.
  destruct (split_directoryPart d seg Hd (proj1 Hseg)) as [segs Hsegs].
  rewrite app_assoc, (split_app_sep slash (d ++ seg) []), Hsegs.
  rewrite <- app_assoc. simpl. rewrite normalizeSegments_app.
  rewrite normalizeSegments_plain by exact Hseg.
  simpl. apply joinSegments_snoc.
Qed.

Ltac reassoc :=
  repeat (rewrite <- app_assoc || rewrite <- app_comm_cons); reflexivity.

Lemma directoryPart_app (a d : jsstring) :
  directoryPart d -> directoryPart (a ++ slash :: d).
Proof.
  intros [->|[q ->]]; right.
  - now exists a.
  - exists (a ++ slash :: q). now rewrite <- app_assoc.
Qed.

(** Resolving a path that ends with a plain segment against a directory
    keeps the segment at the end. *)
Lemma resolve_plain (cwd dir d seg : jsstring) :
  directoryPart d -> plainSegment seg ->
  exists d', directoryPart d' /\ resolve cwd [dir; d ++ seg] = d' ++ seg.
Proof.
  intros Hd Hseg.
  assert (Hne : str_eqb (d ++ seg) [] = false).
  { destruct (str_eqb (d ++ seg) []) eqn:E; [|reflexivity].
    apply str_eqb_eq, app_eq_nil in E as [_ ->]. now destruct Hseg as (_ & H & _). }
  assert (Hres : forall x b,
            directoryPart x ->
            exists d', directoryPart d' /\
              (let normal := normalizeString (x ++ seg ++ [slash]) (negb b) in
               if b then slash :: normal
               else match normal with [] => [dot] | _ :: _ => normal end)
              = d' ++ seg).
  { intros x b Hx.
    destruct (normalizeString_plain (negb b) x seg Hx Hseg) as (d' & Hd' & ->).
    cbv zeta. destruct b.
    - exists (slash :: d'). split; [|reflexivity].
      destruct Hd' as [->|[q ->]]; right; [now exists [] | now exists (slash :: q)].
    - exists d'. split; [exact Hd'|]. destruct (d' ++ seg) eqn:E; [|reflexivity].
      apply app_eq_nil in E as [_ ->]. now destruct Hseg as (_ & H & _). }
  unfold resolve. simpl. rewrite Hne. simpl.
  destruct (isAbsolute (d ++ seg)) eqn:Ea.
  { rewrite <- app_assoc. apply (Hres d true Hd). }
  destruct (str_eqb dir []) eqn:Edir.
  - destruct (str_eqb cwd []) eqn:Ecwd.
    + rewrite <- app_assoc. apply (Hres d false Hd).
    + replace (cwd ++ slash :: (d ++ seg) ++ [slash])
        with ((cwd ++ slash :: d) ++ seg ++ [slash])
        by reassoc.
      apply Hres. now apply directoryPart_app.
  - destruct (isAbsolute dir) eqn:Eabs.
    + replace (dir ++ slash :: (d ++ seg) ++ [slash])
        with ((dir ++ slash :: d) ++ seg ++ [slash])
        by reassoc.
      apply (Hres _ true). now apply directoryPart_app.
    + destruct (str_eqb cwd []) eqn:Ecwd.
      * replace (dir ++ slash :: (d ++ seg) ++ [slash])
          with ((dir ++ slash :: d) ++ seg ++ [slash])
          by reassoc.
        apply (Hres _ false). now apply directoryPart_app.
      * replace (cwd ++ slash :: dir ++ slash :: (d ++ seg) ++ [slash])
          with ((cwd ++ slash :: dir ++ slash :: d) ++ seg ++ [slash])
          by reassoc.
        apply Hres.
        replace (cwd ++ slash :: dir ++ slash :: d)
          with ((cwd ++ slash :: dir) ++ slash :: d)
          by reassoc.
        now apply directoryPart_app.
Qed.

Lemma takeUntil_app (c : N) (a b : jsstring) :
  c ∉ a -> takeUntil c (a ++ c :: b) = (a, true).
Proof.
  induction a as [|x a IH]; intros H; simpl.
  - now rewrite N.eqb_refl.
  - apply not_elem_of_cons in H as [Hx Ha].
    destruct (N.eqb_spec x c) as [->|_]; [easy|]. now rewrite IH.
Qed.

Lemma takeUntil_all (c : N) (a : jsstring) :
  c ∉ a -> takeUntil c a = (a, false).
Proof.
  induction a as [|x a IH]; intros H; simpl; [reflexivity|].
  apply not_elem_of_cons in H as [Hx Ha].
  destruct (N.eqb_spec x c) as [->|_]; [easy|]. now rewrite IH.
Qed.

Lemma lastComponent_plain (d seg : jsstring) :
  directoryPart d -> slash ∉ seg -> seg <> [] ->
  lastComponent (d ++ seg) = seg.
Proof.
  intros Hd Hs Hne. unfold lastComponent. rewrite rev_app_distr.
  assert (Hr : slash ∉ rev seg) by now rewrite elem_of_rev.
  destruct (rev seg) as [|x r] eqn:E.
  { apply (f_equal (@rev N)) in E. rewrite rev_involutive in E. easy. }
  apply not_elem_of_cons in Hr as [Hx Hr'].
  assert (Hdrop : dropTrailingSlashes_rev ((x :: r) ++ rev d) = (x :: r) ++ rev d).
  { simpl. destruct (N.eqb_spec x slash); [congruence | reflexivity]. }
  rewrite Hdrop. assert (Hxr : slash ∉ x :: r) by now apply not_elem_of_cons.
  destruct Hd as [->|[q ->]].
  - change (rev []) with (@nil N). rewrite app_nil_r.
    rewrite (takeUntil_all slash (x :: r)) by exact Hxr.
    change (rev (x :: r) = seg). rewrite <- E. apply rev_involutive.
  - rewrite rev_app_distr. change (rev [slash] ++ rev q) with (slash :: rev q).
    rewrite (takeUntil_app slash (x :: r)) by exact Hxr.
    change (rev (x :: r) = seg). rewrite <- E. apply rev_involutive.
Qed.

(** The extension of a last component [stem.ext]. *)
Lemma extname_plain (d stem ext : jsstring) :
  directoryPart d -> slash ∉ stem -> slash ∉ ext -> dot ∉ ext -> ext <> [] ->
  extname (d ++ stem ++ dot :: ext) =
  match stem with [] => [] | _ :: _ => dot :: ext end.
Proof.
  intros Hd Hstem Hext Hdot Hne. unfold extname.
  rewrite lastComponent_plain; [|exact Hd| |now destruct stem].
  2:{ rewrite elem_of_app, elem_of_cons. intros [H|[H|H]]; easy. }
  rewrite rev_app_distr. simpl rev at 1. rewrite <- app_assoc. simpl app at 2.
  rewrite takeUntil_app by now rewrite elem_of_rev.
  simpl negb. cbv iota. rewrite length_rev, length_app. simpl length.
  destruct stem as [|x stem].
  - simpl. now rewrite Nat.eqb_refl.
  - destruct (Nat.eqb_spec (length (x :: stem) + S (length ext)) (S (length ext)))
      as [H|_]; [simpl in H; lia|].
    unfold is_dotdot.
    destruct (str_eqb ((x :: stem) ++ dot :: ext) [dot; dot]) eqn:E.
    + apply str_eqb_eq in E. exfalso.
      destruct stem as [|y stem]; simpl in E.
      * inversion E. congruence.
      * inversion E as [[Hx Hy Hz]]. now destruct stem.
    + now rewrite rev_involutive.
Qed.

End PathFacts.

(** ** The alphabet of Base64 *)

Module Base64Facts.
Import Base64.

Lemma digit_in_alphabet (n : N) : digit n ∈ alphabet.
Proof.
  unfold digit. destruct (nth_in_or_default (N.to_nat n) alphabet 65%N) as [H | ->].
  - now apply list_elem_of_In.
  - vm_compute. apply list_elem_of_In. simpl. tauto.
Qed.

Lemma encode_chars (bs : list Byte.byte) (c : N) :
  c ∈ encode bs -> c ∈ alphabet \/ c = pad.
Proof.
  revert c. induction bs as [bs IH] using (induction_ltof1 _ (@length _)).
  unfold ltof in IH. intros c.
  destruct bs as [|a [|b [|d bs]]]; simpl.
  - intros H. inversion H.
  - rewrite !elem_of_cons. intros [->|[->|[->|[->|H]]]];
      auto using digit_in_alphabet. inversion H.
  - rewrite !elem_of_cons. intros [->|[->|[->|[->|H]]]];
      auto using digit_in_alphabet. inversion H.
  - rewrite !elem_of_cons. intros [->|[->|[->|[->|H]]]];
      auto using digit_in_alphabet. apply IH in H; [exact H | simpl; lia].
Qed.

End Base64Facts.

(** ** Running commands *)

Lemma bind_run {A B} (m : M A) (k : A -> M B) (w : World) (a : A) (w' : World) :
  m w = (Returned a, w') -> bind m k w = k a w'.
Proof. unfold bind. now intros ->. Qed.

Lemma bind_thrown {A B} (m : M A) (k : A -> M B) (w : World) (e : jsstring)
    (w' : World) :
  m w = (Thrown e, w') -> bind m k w = (Thrown e, w').
Proof. unfold bind. now intros ->. Qed.

Lemma tryCatch_returned {A} (m : M A) (h : jsstring -> M A) (w : World)
    (a : A) (w' : World) :
  m w = (Returned a, w') -> tryCatch m h w = (Returned a, w').
Proof. unfold tryCatch. now intros ->. Qed.

(** ** The references the inliner matches *)

Lemma extension_matches (w rest : jsstring) (caps caps' : captures) :
  matches
    (Alt (Lit (js "png")) (Alt (Lit (js "jpg")) (Alt (Lit (js "jpeg"))
       (Alt (Lit (js "gif")) (Lit (js "svg"))))))
    w rest caps caps' <->
  (w ∈ imageExtensions) /\ caps' = caps.
Proof.
  cbn [matches]. rewrite !Lit_matches. unfold imageExtensions.
  rewrite !elem_of_cons, elem_of_nil. tauto.
Qed.

Lemma LazyStar_Seq_matches (cs : cset) (r : regex) (w rest : jsstring)
    (caps caps' : captures) :
  matches (Seq (LazyStar cs) r) w rest caps caps' <->
  exists w1 w2,
    w = w1 ++ w2 /\ forallb (cset_mem cs) w1 = true /\
    matches r w2 rest caps caps'.
Proof.
  simpl. split.
  - intros (w1 & w2 & c1 & -> & [H ->] & H2). eauto.
  - intros (w1 & w2 & -> & H & H2). exists w1, w2, caps. easy.
Qed.

Lemma Group_matches (i : nat) (r : regex) (w rest : jsstring)
    (caps caps' : captures) :
  matches (Group i r) w rest caps caps' <->
  exists caps1, matches r w rest caps caps1 /\ caps' = (i, w) :: caps1.
Proof. reflexivity. Qed.

Lemma Seq_matches (r1 r2 : regex) (w rest : jsstring) (caps caps' : captures) :
  matches (Seq r1 r2) w rest caps caps' <->
  exists w1 w2 caps1,
    w = w1 ++ w2 /\ matches r1 w1 (w2 ++ rest) caps caps1 /\
    matches r2 w2 rest caps1 caps'.
Proof. reflexivity. Qed.

Lemma imageRegex_matches (w rest : jsstring) (caps caps' : captures) :
  matches imageRegex w rest caps caps' <->
  exists alt path ext,
    imageReference alt path ext /\ w = referenceText alt path /\
    caps' = (1, path) :: (2, ext) :: caps.
Proof.
  unfold imageRegex, imageReference, referenceText, noLineTerminator. split.
  - intros H. apply Seq_Lit_matches in H as (w1 & -> & H).
    apply LazyStar_Seq_matches in H as (alt & w2 & -> & Halt & H).
    apply Seq_Lit_matches in H as (w3 & -> & H).
    apply Seq_matches in H as (path & w4 & c2 & -> & H & H4).
    apply Lit_matches in H4 as [-> ->].
    apply Group_matches in H as (c3 & H & ->).
    apply Seq_Lit_matches in H as (w5 & -> & H).
    apply LazyStar_Seq_matches in H as (mid & w6 & -> & Hmid & H).
    apply Seq_Lit_matches in H as (w7 & -> & H).
    apply Group_matches in H as (c5 & H & ->).
    apply extension_matches in H as [Hext ->].
    exists alt, (js "./" ++ mid ++ js "." ++ w7), w7. eauto 10.
  - intros (alt & path & ext & (Halt & Hext & mid & Hmid & ->) & -> & ->).
    apply Seq_Lit_matches. eexists. split; [reflexivity|].
    apply LazyStar_Seq_matches. do 2 eexists. split; [reflexivity|].
    split; [exact Halt|].
    apply Seq_Lit_matches. eexists. split; [reflexivity|].
    apply Seq_matches. do 3 eexists. split; [reflexivity|].
    split; [|now apply Lit_matches].
    apply Group_matches. eexists. split; [|reflexivity].
    apply Seq_Lit_matches. eexists. split; [reflexivity|].
    apply LazyStar_Seq_matches. do 2 eexists. split; [reflexivity|].
    split; [exact Hmid|].
    apply Seq_Lit_matches. eexists. split; [reflexivity|].
    apply Group_matches. eexists. split; [|reflexivity].
    now apply extension_matches.
Qed.

(** A match the inliner finds in a document is such a reference, and the
    function it calls receives the path as the first group. *)
Lemma matchAll_imageRegex (markdown : jsstring) (m : MatchResult) :
  m ∈ (matchAll imageRegex markdown).1 ->
  exists alt path ext,
    imageReference alt path ext /\ matched m = referenceText alt path /\
    groups m = [(1, path); (2, ext)].
Proof.
  destruct (matchAll imageRegex markdown) as [ms tail] eqn:E. simpl.
  apply matchAll_spec in E as [_ Hms]. intros Hm.
  rewrite Forall_forall in Hms. apply Hms in Hm.
  apply imageRegex_matches in Hm. exact Hm.
Qed.

(** ** Running the inliner *)

Lemma imageToBase64_readable (imgPath : jsstring) (w : World)
    (bs : list Byte.byte) :
  readImage w imgPath = Some bs ->
  imageToBase64 imgPath w =
  (Returned (Some (dataUri (mediaType (drop 1 (Path.extname imgPath)))
                     (Base64.encode bs))), w).
Proof.
  unfold readImage, imageToBase64, tryCatch, readFileSync, readFile, bind, gets.
  destruct (files w !! imgPath) as [f|]; [|easy].
  destruct (readable f); [|easy]. now intros [= <-].
Qed.

Lemma imageToBase64_unreadable (imgPath : jsstring) (w : World) :
  readImage w imgPath = None ->
  imageToBase64 imgPath w =
  (Returned None,
   set_console
     (fun c => c ++ [(Stderr, js "Erro ao converter imagem: " ++ imgPath)]) w).
Proof.
  unfold readImage, imageToBase64, tryCatch, readFileSync, readFile, bind, gets.
  destruct (files w !! imgPath) as [f|]; [|easy].
  destruct (readable f); easy.
Qed.

Section Inliner.
Variable cwd : jsstring.
Variable dirname : jsstring.

Lemma inlineImage_readable (text : jsstring) (caps : captures) (w : World)
    (bs : list Byte.byte) :
  readImage w (imageFile cwd dirname (default [] (getcap 1 caps))) = Some bs ->
  inlineImage cwd dirname text caps w =
  (Returned
     (replaceString text (default [] (getcap 1 caps))
        (dataUri
           (mediaType
              (drop 1 (Path.extname (imageFile cwd dirname (default [] (getcap 1 caps))))))
           (Base64.encode bs))), w).
Proof.
  intros H. unfold inlineImage, bind, imageFile in *. cbv zeta.
  now rewrite (imageToBase64_readable _ _ _ H).
Qed.

Lemma inlineImage_unreadable (text : jsstring) (caps : captures) (w : World) :
  readImage w (imageFile cwd dirname (default [] (getcap 1 caps))) = None ->
  inlineImage cwd dirname text caps w =
  (Returned text,
   set_console
     (fun c =>
        c ++ [(Stderr, js "Erro ao converter imagem: "
                       ++ imageFile cwd dirname (default [] (getcap 1 caps)))]) w).
Proof.
  intros H. unfold inlineImage, bind, imageFile in *. cbv zeta.
  now rewrite (imageToBase64_unreadable _ _ H).
Qed.

(** The function called on a reference returns, leaves the files as they
    are, and what it returns depends on the files only. *)
Lemma inlineImage_returns (text : jsstring) (caps : captures) (w : World) :
  exists t w',
    inlineImage cwd dirname text caps w = (Returned t, w') /\
    files w' = files w.
Proof.
  destruct (readImage w (imageFile cwd dirname (default [] (getcap 1 caps)))) as [bs|] eqn:E.
  - rewrite (inlineImage_readable _ _ _ _ E). eauto.
  - rewrite (inlineImage_unreadable _ _ _ E). eauto.
Qed.

Lemma inlineImage_files (text : jsstring) (caps : captures) (w1 w2 : World) :
  files w1 = files w2 ->
  (inlineImage cwd dirname text caps w1).1 =
  (inlineImage cwd dirname text caps w2).1.
Proof.
  intros Hf.
  assert (Hr : forall p, readImage w1 p = readImage w2 p).
  { intros p. unfold readImage. now rewrite Hf. }
  destruct (readImage w1 (imageFile cwd dirname (default [] (getcap 1 caps)))) as [bs|] eqn:E.
  - rewrite (inlineImage_readable _ _ _ _ E).
    rewrite Hr in E. now rewrite (inlineImage_readable _ _ _ _ E).
  - rewrite (inlineImage_unreadable _ _ _ E).
    rewrite Hr in E. now rewrite (inlineImage_unreadable _ _ _ E).
Qed.

Lemma inline_forEach (w0 : World) (ms : list MatchResult) :
  forall acc w, files w = files w0 ->
  exists texts w',
    forEach
      (fun m acc =>
         replacement <- inlineImage cwd dirname (matched m) (groups m) ;;
         ret (acc ++ before m ++ replacement))
      ms acc w
    = (Returned (acc ++ concat (zip_with (fun m t => before m ++ t) ms texts)), w')
    /\ files w' = files w0
    /\ Forall2
         (fun m t =>
            (inlineImage cwd dirname (matched m) (groups m) w0).1 = Returned t)
         ms texts.
Proof.
  induction ms as [|m ms IH]; intros acc w Hw.
  - exists [], w. simpl. unfold ret. rewrite app_nil_r. eauto.
  - destruct (inlineImage_returns (matched m) (groups m) w) as (t & w1 & Ht & Hw1).
    destruct (IH (acc ++ before m ++ t) w1) as (texts & w' & Hrun & Hf & Hall).
    { congruence. }
    exists (t :: texts), w'. split; [|split; [exact Hf|]].
    + cbn [forEach]. unfold bind at 1 2. rewrite Ht. unfold ret at 1.
      rewrite Hrun. simpl. now rewrite <- !app_assoc.
    + constructor; [|exact Hall].
      rewrite <- (inlineImage_files _ _ w w0 Hw). now rewrite Ht.
Qed.

(** The inliner returns the document put together from what the function
    returns for each match, run on that match alone. *)
Lemma inlineImages_run (markdown : jsstring) (w : World) :
  exists texts w',
    inlineImages cwd dirname markdown w =
    (Returned
       (assemble (matchAll imageRegex markdown).1 texts
          (matchAll imageRegex markdown).2), w')
    /\ files w' = files w
    /\ Forall2
         (fun m t =>
            (inlineImage cwd dirname (matched m) (groups m) w).1 = Returned t)
         (matchAll imageRegex markdown).1 texts.
Proof.
  unfold inlineImages, replaceAll.
  destruct (matchAll imageRegex markdown) as [ms tail]. simpl.
  destruct (inline_forEach w ms [] w eq_refl) as (texts & w' & Hrun & Hf & Hall).
  exists texts, w'. unfold bind at 1. rewrite Hrun. unfold ret, assemble. eauto.
Qed.

End Inliner.

Lemma assemble_matched (ms : list MatchResult) (tail : jsstring) :
  assemble ms (map matched ms) tail = pieces ms ++ tail.
Proof.
  unfold assemble, pieces. f_equal. induction ms as [|m ms IH]; simpl.
  - reflexivity.
  - now rewrite IH.
Qed.

(** A document is put together from the matches found in it. *)
Lemma matchAll_assemble (r : regex) (s : jsstring) :
  s = assemble (matchAll r s).1 (map matched (matchAll r s).1) (matchAll r s).2.
Proof.
  rewrite assemble_matched. destruct (matchAll r s) as [ms tail] eqn:E.
  now apply matchAll_spec in E as [-> _].
Qed.

(** A document without a reference has no match. *)
Lemma no_reference_no_match (markdown : jsstring) :
  (forall pre alt path ext post,
      imageReference alt path ext ->
      markdown <> pre ++ referenceText alt path ++ post) ->
  matchAll imageRegex markdown = ([], markdown).
Proof.
  intros Hnone. apply matchAll_none.
  destruct (exec imageRegex markdown) as [m|] eqn:E; [|reflexivity].
  apply exec_sound in E as [Hs Hm].
  apply imageRegex_matches in Hm as (alt & path & ext & Href & Hm & _).
  exfalso. apply (Hnone (before m) alt path ext (after m) Href).
  now rewrite <- Hm.
Qed.

(** C10: [imageToBase64] returns for every path, either [null] or a text
    of the form [data:<media-type>;base64,<payload>]; it never throws, so
    the inliner returns for every document. *)
Theorem imageToBase64_total (imgPath : jsstring) (w : World) :
  (exists result w',
      imageToBase64 imgPath w = (Returned result, w') /\
      (result = None \/
       exists mediaType payload,
         result = Some (js "data:" ++ mediaType ++ js ";base64," ++ payload)))
  /\ (forall cwd dirname markdown,
        exists text w', inlineImages cwd dirname markdown w = (Returned text, w')).
Proof.
  split.
  - destruct (readImage w imgPath) as [bs|] eqn:E.
    + rewrite (imageToBase64_readable _ _ _ E).
      eexists _, w. split; [reflexivity|]. right. unfold dataUri. eauto.
    + rewrite (imageToBase64_unreadable _ _ E).
      eexists None, _. split; [reflexivity|]. now left.
  - intros cwd dirname markdown.
    destruct (inlineImages_run cwd dirname markdown w) as (texts & w' & H & _).
    eauto.
Qed.

(** C5: the document is the text between the matches and the matched
    references, in their order; the inliner returns the same text between
    the matches, with one text in place of each matched reference; and a
    document in which no reference occurs is returned as it is. *)
Theorem inliner_keeps_other_text (cwd dirname markdown : jsstring) (w : World) :
  let ms := (matchAll imageRegex markdown).1 in
  let tail := (matchAll imageRegex markdown).2 in
  markdown = assemble ms (map matched ms) tail
  /\ Forall
       (fun m =>
          exists alt path ext,
            imageReference alt path ext /\ matched m = referenceText alt path)
       ms
  /\ (exists texts w',
        inlineImages cwd dirname markdown w
        = (Returned (assemble ms texts tail), w')
        /\ length texts = length ms)
  /\ ((forall pre alt path ext post,
          imageReference alt path ext ->
          markdown <> pre ++ referenceText alt path ++ post) ->
      inlineImages cwd dirname markdown w = (Returned markdown, w)).
Proof.
  cbv zeta. split; [apply matchAll_assemble|]. split; [|split].
  - apply Forall_forall. intros m Hm.
    destruct (matchAll_imageRegex markdown m Hm) as (alt & path & ext & H1 & H2 & _).
    eauto.
  - destruct (inlineImages_run cwd dirname markdown w)
      as (texts & w' & H & _ & Hall).
    exists texts, w'. split; [exact H|]. symmetry.
    exact (Forall2_length _ _ _ Hall).
  - intros Hnone. unfold inlineImages, replaceAll.
    now rewrite (no_reference_no_match markdown Hnone).
Qed.

(** ** The text put in place of a reference *)

(** The extensions the inliner accepts are plain: no slash, no dot, no
    dollar sign, and at least three code units. *)
Lemma imageExtensions_plain (ext : jsstring) :
  ext ∈ imageExtensions ->
  (Path.slash ∉ ext) /\ (Path.dot ∉ ext) /\ (36%N ∉ ext) /\ 3 <= length ext.
Proof.
  unfold imageExtensions. rewrite !elem_of_cons, elem_of_nil.
  intros [->|[->|[->|[->|[->|[]]]]]];
    (repeat split; [| | |simpl; lia]);
    intros H; apply list_elem_of_In in H; vm_compute in H;
    repeat destruct H as [H|H]; try discriminate H; exact H.
Qed.

Section Replacement.
Variable cwd : jsstring.
Variable dirname : jsstring.

(** The extension [imageToBase64] finds for the file of a reference: the
    extension of the reference, unless the last component of its path is
    the extension alone, as in [./.png]. *)
Lemma extname_reference (alt path ext : jsstring) :
  imageReference alt path ext ->
  drop 1 (Path.extname (imageFile cwd dirname path)) =
  if str_eqb (Path.lastComponent path) (Path.dot :: ext) then [] else ext.
Proof.
  intros (_ & Hext & mid & _ & ->).
  destruct (imageExtensions_plain ext Hext) as (Hslash & Hdot & _ & Hlen).
  assert (Hne : ext <> []) by (intros ->; simpl in Hlen; lia).
  destruct (PathFacts.path_decompose mid) as (d & stem & -> & Hd & Hstem).
  assert (Hdir : Path.directoryPart (js "./" ++ d)).
  { right. destruct Hd as [->|[q ->]].
    - now exists (js ".").
    - exists (js "./" ++ q). now rewrite <- app_assoc. }
  assert (Hplain : Path.plainSegment (stem ++ Path.dot :: ext)).
  { split; [|repeat split]; try
      (intros H; apply (f_equal (@length N)) in H; rewrite length_app in H;
       simpl in H; lia).
    rewrite elem_of_app, elem_of_cons. intros [H|[H|H]]; easy. }
  replace (js "./" ++ (d ++ stem) ++ js "." ++ ext)
    with ((js "./" ++ d) ++ stem ++ Path.dot :: ext)
    by (rewrite <- !app_assoc; reflexivity).
  unfold imageFile.
  destruct (PathFacts.resolve_plain cwd (INPUT_DIR cwd dirname) _ _ Hdir Hplain)
    as (d' & Hd' & ->).
  rewrite (PathFacts.extname_plain d' stem ext Hd' Hstem Hslash Hdot Hne).
  rewrite (PathFacts.lastComponent_plain _ _ Hdir (proj1 Hplain))
    by now destruct stem.
  destruct stem as [|x stem].
  - simpl app.
    assert (E : str_eqb (Path.dot :: ext) (Path.dot :: ext) = true)
      by now apply str_eqb_eq.
    now rewrite E.
  - destruct (str_eqb ((x :: stem) ++ Path.dot :: ext) (Path.dot :: ext)) eqn:E;
      [|reflexivity].
    apply str_eqb_eq in E. apply (f_equal (@length N)) in E.
    rewrite length_app in E. simpl in E. lia.
Qed.

(** The text put in place of a path has no dollar sign: [replace] inserts
    it as it is. *)
Lemma dataUri_plain (alt path ext : jsstring) (bs : list Byte.byte) :
  imageReference alt path ext ->
  36%N ∉ dataUri (mediaType (drop 1 (Path.extname (imageFile cwd dirname path))))
          (Base64.encode bs).
Proof.
  intros Href. rewrite (extname_reference alt path ext Href).
  destruct Href as (_ & Hext & _).
  destruct (imageExtensions_plain ext Hext) as (_ & _ & Hdollar & _).
  unfold dataUri, mediaType. rewrite !elem_of_app.
  assert (Hlit : forall s : string,
             forallb (fun c => negb (c =? 36)%N) (js s) = true -> 36%N ∉ js s).
  { intros s H Hin. rewrite forallb_forall in H.
    apply list_elem_of_In, H in Hin. discriminate. }
  intros [H|[[H|H]|[H|H]]].
  - now apply (Hlit "data:"%string).
  - now apply (Hlit "image/"%string).
  - destruct (str_eqb _ (js "jpg")).
    + now apply (Hlit "jpeg"%string).
    + destruct (str_eqb _ _); [inversion H | now apply Hdollar].
  - now apply (Hlit ";base64,"%string).
  - apply Base64Facts.encode_chars in H as [H|H]; [|discriminate].
    apply list_elem_of_In in H. vm_compute in H.
    repeat destruct H as [H|H]; try discriminate H; exact H.
Qed.

(** What the replacement function returns for a reference whose file can
    be read: the reference with the data URI at the first place where the
    text of the path occurs in it. *)
Lemma inlineImage_reference (w : World) (alt path ext : jsstring)
    (bs : list Byte.byte) :
  imageReference alt path ext ->
  readImage w (imageFile cwd dirname path) = Some bs ->
  exists front back,
    indexOf (referenceText alt path) path = Some (front, back) /\
    inlineImage cwd dirname (referenceText alt path) [(1, path); (2, ext)] w =
    (Returned
       (front
        ++ dataUri
             (mediaType (drop 1 (Path.extname (imageFile cwd dirname path))))
             (Base64.encode bs)
        ++ back), w).
Proof.
  intros Href Hread.
  rewrite (inlineImage_readable cwd dirname _ [(1, path); (2, ext)] w bs Hread).
  simpl default. unfold replaceString.
  destruct (indexOf (referenceText alt path) path) as [[front back]|] eqn:E.
  - exists front, back. split; [reflexivity|].
    now rewrite (getSubstitution_plain _ _ _ _ (dataUri_plain alt path ext bs Href)).
  - exfalso. apply (indexOf_None _ _ E (js "![" ++ alt ++ js "](") (js ")")).
    unfold referenceText. now rewrite <- !app_assoc.
Qed.

End Replacement.

(** The first place where a path occurs in its reference is not in the two
    code units the reference starts with. *)
Lemma indexOf_referenceText (alt path ext front back : jsstring) :
  imageReference alt path ext ->
  indexOf (alt ++ js "](" ++ path ++ js ")") path = Some (front, back) ->
  indexOf (referenceText alt path) path = Some (js "![" ++ front, back).
Proof.
  intros (_ & _ & mid & _ & ->) H. unfold referenceText.
  change (js "![" ++ ?t) with (33%N :: 91%N :: t).
  change (js "./" ++ ?t) with (46%N :: 47%N :: t) in *.
  cbn [indexOf startsWith N.eqb Pos.eqb andb]. now rewrite H.
Qed.

(** C9, as amended: for a matched reference whose file can be read, the
    replacement function returns the reference with the data URI at the
    first place where the text of the path occurs in the whole reference.
    When that first place is the path in parentheses, the result is
    [![alt](<data-uri>)]; when the alt text contains the path, the data URI
    lands in the alt text and the path in parentheses stays. *)
Theorem first_occurrence_replaced (cwd dirname : jsstring) (w : World)
    (alt path ext : jsstring) (bs : list Byte.byte) :
  imageReference alt path ext ->
  readImage w (imageFile cwd dirname path) = Some bs ->
  exists uri front back,
    (exists mediaType, uri = dataUri mediaType (Base64.encode bs))
    /\ indexOf (referenceText alt path) path = Some (front, back)
    /\ (inlineImage cwd dirname (referenceText alt path)
          [(1, path); (2, ext)] w).1
       = Returned (front ++ uri ++ back)
    /\ (indexOf (alt ++ js "](" ++ path) path = Some (alt ++ js "](", []) ->
        front ++ uri ++ back = referenceText alt uri)
    /\ (forall a1 a2,
          indexOf alt path = Some (a1, a2) ->
          front ++ uri ++ back = referenceText (a1 ++ uri ++ a2) path).
Proof.
  intros Href Hread.
  destruct (inlineImage_reference cwd dirname w alt path ext bs Href Hread)
    as (front & back & Hidx & Hrun).
  eexists _, front, back. split; [eexists; reflexivity|].
  split; [exact Hidx|]. split; [now rewrite Hrun|]. split.
  - intros H. apply (indexOf_app _ _ _ _ (js ")")) in H.
    rewrite <- !app_assoc in H.
    rewrite (indexOf_referenceText alt path ext _ _ Href H) in Hidx.
    assert (Hf : front = js "![" ++ alt ++ js "](") by congruence.
    assert (Hb : back = [] ++ js ")") by congruence.
    rewrite Hf, Hb. unfold referenceText. now rewrite <- !app_assoc.
  - intros a1 a2 H. apply (indexOf_app _ _ _ _ (js "](" ++ path ++ js ")")) in H.
    rewrite (indexOf_referenceText alt path ext _ _ Href H) in Hidx.
    assert (Hf : front = js "![" ++ a1) by congruence.
    assert (Hb : back = a2 ++ js "](" ++ path ++ js ")") by congruence.
    rewrite Hf, Hb. unfold referenceText. now rewrite <- !app_assoc.
Qed.

(** For a matched reference whose file can be read, whose path first
    occurs in the reference at its place in parentheses and whose file name
    is more than the extension, the replacement function returns
    [![alt](data:<media-type>;base64,<payload>)] with the media type
    [image/jpeg] for [jpg] and [image/<extension>] otherwise. *)
Theorem reference_inlined (cwd dirname : jsstring) (w : World)
    (alt path ext : jsstring) (bs : list Byte.byte) :
  imageReference alt path ext ->
  readImage w (imageFile cwd dirname path) = Some bs ->
  indexOf (alt ++ js "](" ++ path) path = Some (alt ++ js "](", []) ->
  Path.lastComponent path <> Path.dot :: ext ->
  inlineImage cwd dirname (referenceText alt path) [(1, path); (2, ext)] w =
  (Returned
     (referenceText alt
        (js "data:image/"
         ++ (if str_eqb ext (js "jpg") then js "jpeg" else ext)
         ++ js ";base64," ++ Base64.encode bs)), w).
Proof.
  intros Href Hread Hfirst Hname.
  destruct (inlineImage_reference cwd dirname w alt path ext bs Href Hread)
    as (front & back & Hidx & ->).
  apply (indexOf_app _ _ _ _ (js ")")) in Hfirst.
  rewrite <- !app_assoc in Hfirst.
  rewrite (indexOf_referenceText alt path ext _ _ Href Hfirst) in Hidx.
  assert (Hf : front = js "![" ++ alt ++ js "](") by congruence.
  assert (Hb : back = [] ++ js ")") by congruence.
  rewrite Hf, Hb.
  rewrite (extname_reference cwd dirname alt path ext Href).
  destruct (str_eqb (Path.lastComponent path) (Path.dot :: ext)) eqn:E.
  { now apply str_eqb_eq in E. }
  unfold referenceText, dataUri, mediaType. now rewrite <- !app_assoc.
Qed.

Lemma first_occurrence_replaced_witness :
  exists uri front back,
    (exists mediaType,
        uri = dataUri mediaType (Base64.encode [Byte.x4d; Byte.x61; Byte.x6e]))
    /\ indexOf (referenceText (js "x") (js "./a.png")) (js "./a.png")
       = Some (front, back)
    /\ (inlineImage Example.cwd Example.dirname
          (referenceText (js "x") (js "./a.png"))
          [(1, js "./a.png"); (2, js "png")] Example.world).1
       = Returned (front ++ uri ++ back)
    /\ (indexOf (js "x" ++ js "](" ++ js "./a.png") (js "./a.png")
        = Some (js "x" ++ js "](", []) ->
        front ++ uri ++ back = referenceText (js "x") uri)
    /\ (forall a1 a2,
          indexOf (js "x") (js "./a.png") = Some (a1, a2) ->
          front ++ uri ++ back
          = referenceText (a1 ++ uri ++ a2) (js "./a.png")).
Proof.
  apply (first_occurrence_replaced Example.cwd Example.dirname Example.world
           (js "x") (js "./a.png") (js "png") [Byte.x4d; Byte.x61; Byte.x6e]).
  - split; [reflexivity|]. split.
    + apply list_elem_of_In. simpl. tauto.
    + exists (js "a"). split; reflexivity.
  - vm_compute. reflexivity.
Defined.

(** C9, as stated, fails: in [![./x.png](./x.png](./x.png)] the inliner
    matches the alt text [./x.png] and the path [./x.png](./x.png]; the alt
    text does not contain the path, and still the data URI lands in front
    of the text in parentheses instead of in it. *)
Lemma alt_without_path_counterexample :
  let alt := js "./x.png" in
  let path := js "./x.png](./x.png" in
  (matchAll imageRegex (referenceText alt path)).1
  = [ {| before := []; matched := referenceText alt path;
         groups := [(1, path); (2, js "png")]; after := [] |} ]
  /\ includes alt path = false
  /\ Example.inline (referenceText alt path)
     = Returned (js "![data:image/png;base64,TWFu](./x.png)")
  /\ referenceText alt (js "data:image/png;base64,TWFu")
     <> js "![data:image/png;base64,TWFu](./x.png)".
Proof.
  cbv zeta. split; [vm_compute; reflexivity|]. split; [reflexivity|].
  split; [vm_compute; reflexivity|]. discriminate.
Qed.

(** C1 fails on the code in two cases.  When the alt text contains the
    path, as in [![./a.png](./a.png)], the data URI replaces the alt text
    and the relative path stays in the parentheses.  When the file name is
    the extension alone, as in [./.png], the media type is [image/] without
    the extension. *)
Theorem relative_path_remains :
  Example.inline (js "![./a.png](./a.png)")
  = Returned (js "![data:image/png;base64,TWFu](./a.png)")
  /\ Example.inline (js "![q](./.png)")
     = Returned (js "![q](data:image/;base64,TWFu)").
Proof. split; vm_compute; reflexivity. Qed.

(** ** The name of the PDF *)

Lemma mdRegex_matches (w rest : jsstring) (caps caps' : captures) :
  matches mdRegex w rest caps caps' -> w = js ".md" /\ rest = [].
Proof.
  unfold mdRegex. intros H. apply Seq_Lit_matches in H as (w2 & -> & H).
  destruct H as (-> & -> & _). easy.
Qed.

(** In a name that ends in [.md] the expression [/\.md$/] matches that end
    and nothing before it. *)
Lemma exec_mdRegex (stem : jsstring) :
  exec mdRegex (stem ++ js ".md") =
  Some {| before := stem; matched := js ".md"; groups := []; after := [] |}.
Proof.
  induction stem as [|c stem IH]; [reflexivity|].
  change (exec mdRegex ((c :: stem) ++ js ".md"))
    with (match matchHere mdRegex (c :: stem ++ js ".md") with
          | Some m => Some m
          | None =>
              match exec mdRegex (stem ++ js ".md") with
              | Some m =>
                  Some {| before := c :: before m; matched := matched m;
                          groups := groups m; after := after m |}
              | None => None
              end
          end).
  destruct (matchHere mdRegex (c :: stem ++ js ".md")) as [m|] eqn:E.
  - apply matchHere_sound in E as (_ & Hs & Hm).
    apply mdRegex_matches in Hm as [Hw Hr]. rewrite Hw, Hr in Hs.
    apply (f_equal (@length N)) in Hs. simpl in Hs.
    rewrite length_app in Hs. simpl in Hs. lia.
  - now rewrite IH.
Qed.


(** ** The page rule *)

(** C8, as amended: the document handed to the browser contains the
    [@page] rule of the format, with the directive
    [size: <format> portrait;] and the margin of the format's entry in the
    table as the one value of [margin:], which sets the four sides; the
    same margin is given for the four sides to [page.pdf]; two different
    formats have different page-size directives, hence different rules.
    The margins of the table are 25mm, 20mm, 20mm and 15mm: they are not
    pairwise distinct. *)
Theorem page_rule_of_format (format : PaperFormat) (htmlContent : jsstring) :
  (exists pre post,
      composeHtml format htmlContent = pre ++ pageRule format ++ post)
  /\ (exists gap1 gap2 gap3,
        pageRule format
        = js "@page {" ++ gap1
          ++ js "size: " ++ formatName format ++ js " portrait;" ++ gap2
          ++ js "margin: " ++ margin (formatConfigs format) ++ js ";" ++ gap3
          ++ js "}")
  /\ (forall outputPath,
        let options := pdfOptions outputPath format in
        pdf_margin_top options = margin (formatConfigs format)
        /\ pdf_margin_bottom options = margin (formatConfigs format)
        /\ pdf_margin_left options = margin (formatConfigs format)
        /\ pdf_margin_right options = margin (formatConfigs format)
        /\ pdf_format options = formatName format
        /\ pdf_landscape options = false)
  /\ (forall other,
        pageSizeDirective format = pageSizeDirective other
        \/ pageRule format = pageRule other ->
        format = other)
  /\ map (fun f => margin (formatConfigs f)) formatKeys
     = [js "25mm"; js "20mm"; js "20mm"; js "15mm"].
Proof.
  split; [|split; [|split; [|split]]].
  - exists (htmlHead format), (htmlTail format htmlContent). reflexivity.
  - exists (js "
            "), (js "
            "), (js "
          ").
    unfold pageRule, pageSizeDirective, marginDirective.
    rewrite <- !app_assoc. reflexivity.
  - intros outputPath. cbv zeta. simpl. tauto.
  - intros other [H|H]; destruct format, other;
      try reflexivity; vm_compute in H; discriminate H.
  - reflexivity.
Qed.

(** C8, as stated, fails: A3 and A4 are different formats with the same
    margin directive, [margin: 20mm;]. *)
Lemma shared_margin_counterexample :
  A3 <> A4
  /\ marginDirective (formatConfigs A3) = marginDirective (formatConfigs A4)
  /\ marginDirective (formatConfigs A3) = js "margin: 20mm;".
Proof. repeat split; [discriminate | reflexivity..]. Qed.

(** ** The format of the run *)

(** The prompt returns a format whatever is typed: the one chosen by [1],
    [2], [3] or [4], and A4 for an empty line and for anything else. *)
Lemma promptForFormat_returns (w : World) :
  exists format w',
    promptForFormat w = (Returned format, w')
    /\ (trim (answer w) = js "1" -> format = A2)
    /\ (trim (answer w) = js "2" -> format = A3)
    /\ (trim (answer w) = js "4" -> format = A5)
    /\ (trim (answer w) <> js "1" -> trim (answer w) <> js "2" ->
        trim (answer w) <> js "4" -> format = A4).
Proof.
  unfold promptForFormat, bind, console_log, modify, gets, ret. simpl.
  destruct (trim (answer w)) as [|c t] eqn:E.
  { eexists _, _. split; [reflexivity|]. repeat split; easy. }
  destruct (str_eqb (c :: t) (js "1")) eqn:E1.
  { apply str_eqb_eq in E1. rewrite E1.
    eexists _, _. split; [reflexivity|]. repeat split; easy. }
  destruct (str_eqb (c :: t) (js "2")) eqn:E2.
  { apply str_eqb_eq in E2. rewrite E2.
    eexists _, _. split; [reflexivity|]. repeat split; easy. }
  destruct (str_eqb (c :: t) (js "3")) eqn:E3.
  { apply str_eqb_eq in E3. rewrite E3.
    eexists _, _. split; [reflexivity|]. repeat split; easy. }
  destruct (str_eqb (c :: t) (js "4")) eqn:E4.
  { apply str_eqb_eq in E4. rewrite E4.
    eexists _, _. split; [reflexivity|]. repeat split; easy. }
  eexists _, _. split; [reflexivity|].
  repeat split; try easy; intros H; rewrite H in *; discriminate.
Qed.

(** C4, as amended: when the first [--format=] argument, cut at its next
    [=] and put in upper case, is not one of A2, A3, A4 and A5,
    [getFormatFromArgs] logs the text it read and returns [null], and the
    program goes on with the prompt, which returns the format chosen by the
    line typed there, A4 when that line is empty or none of [1] to [4];
    nothing throws. *)
Theorem invalid_format_goes_to_prompt (toUpperCase : jsstring -> jsstring)
    (w : World) (formatArg : jsstring) :
  find (fun arg => startsWith arg (js "--format=")) (drop 2 (argv w))
  = Some formatArg ->
  (toUpperCase <$> split 61 formatArg !! 1) ≫= formatOfString = None ->
  let w1 :=
    set_console
      (fun c =>
         c ++ [(Stdout,
                invalidFormatLine (toUpperCase <$> split 61 formatArg !! 1))])
      w in
  getFormatFromArgs toUpperCase w = (Returned None, w1)
  /\ selectFormat toUpperCase w = promptForFormat w1
  /\ exists format w2,
       selectFormat toUpperCase w = (Returned format, w2)
       /\ (trim (answer w) = js "1" -> format = A2)
       /\ (trim (answer w) = js "2" -> format = A3)
       /\ (trim (answer w) = js "4" -> format = A5)
       /\ (trim (answer w) <> js "1" -> trim (answer w) <> js "2" ->
           trim (answer w) <> js "4" -> format = A4).
Proof.
  intros Hfind Hbad. cbv zeta.
  assert (Hget : getFormatFromArgs toUpperCase w
                 = (Returned None,
                    set_console
                      (fun c =>
                         c ++ [(Stdout,
                                invalidFormatLine
                                  (toUpperCase <$> split 61 formatArg !! 1))])
                      w)).
  { unfold getFormatFromArgs, bind at 1, gets. rewrite Hfind, Hbad.
    reflexivity. }
  split; [exact Hget|].
  assert (Hsel : selectFormat toUpperCase w
                 = promptForFormat
                     (set_console
                        (fun c =>
                           c ++ [(Stdout,
                                  invalidFormatLine
                                    (toUpperCase <$> split 61 formatArg !! 1))])
                        w)).
  { unfold selectFormat, bind at 1. now rewrite Hget. }
  split; [exact Hsel|]. rewrite Hsel.
  exact (promptForFormat_returns (set_console _ w)).
Qed.

Lemma invalid_format_goes_to_prompt_witness :
  let w :=
    {| argv := [js "node"; js "index.js"; js "--format=A9"];
       answer := js " 2 "; console := []; files := ∅; indir := None;
       outdir := None; launched := 0; closed := 0; printed := [];
       fault := fun _ => false;
       outfault := fun _ => false; closedOnFailure := false |} in
  (getFormatFromArgs asciiUpperCase w).1 = Returned None
  /\ (selectFormat asciiUpperCase w).1 = Returned A3.
Proof.
  cbv zeta.
  destruct (invalid_format_goes_to_prompt asciiUpperCase
              {| argv := [js "node"; js "index.js"; js "--format=A9"];
                 answer := js " 2 "; console := []; files := ∅; indir := None;
                 outdir := None; launched := 0; closed := 0; printed := [];
                 fault := fun _ => false;
                 outfault := fun _ => false; closedOnFailure := false |}
              (js "--format=A9") eq_refl eq_refl)
    as (Hget & _ & format & w2 & Hsel & _ & H2 & _).
  split.
  - rewrite Hget. reflexivity.
  - rewrite Hsel. rewrite (H2 eq_refl). reflexivity.
Defined.

(** C4, as stated, fails: with [--format=A9] on the command line and [1]
    typed at the prompt, the invalid text is logged and the program goes
    on with A2, the format typed, not with a default format. *)
Lemma invalid_format_counterexample :
  let w :=
    {| argv := [js "node"; js "index.js"; js "--format=A9"];
       answer := js "1"; console := []; files := ∅; indir := None;
       outdir := None; launched := 0; closed := 0; printed := [];
       fault := fun _ => false;
       outfault := fun _ => false; closedOnFailure := false |} in
  formatOfString (asciiUpperCase (js "A9")) = None
  /\ (selectFormat asciiUpperCase w).1 = Returned A2
  /\ head (console (selectFormat asciiUpperCase w).2)
     = Some (Stdout, invalidFormatLine (Some (js "A9"))).
Proof. cbv zeta. repeat split; vm_compute; reflexivity. Qed.

(** ** The browser of a conversion *)

Lemma set_console_id (w : World) : w = set_console (fun _ => console w) w.
Proof. now destruct w. Qed.

(** The inliner changes nothing in the world but the console. *)
Lemma inlineImage_console (cwd dirname text : jsstring) (caps : captures)
    (w : World) :
  exists t c,
    inlineImage cwd dirname text caps w
    = (Returned t, set_console (fun _ => c) w).
Proof.
  destruct (readImage w (imageFile cwd dirname (default [] (getcap 1 caps))))
    as [bs|] eqn:E.
  - rewrite (inlineImage_readable _ _ _ _ _ _ E).
    eexists _, (console w). now rewrite <- set_console_id.
  - rewrite (inlineImage_unreadable _ _ _ _ _ E). eexists _, _. reflexivity.
Qed.

Lemma inlineImages_console (cwd dirname markdown : jsstring) (w : World) :
  exists t c,
    inlineImages cwd dirname markdown w
    = (Returned t, set_console (fun _ => c) w).
Proof.
  unfold inlineImages, replaceAll.
  destruct (matchAll imageRegex markdown) as [ms tail].
  assert (H : forall acc c0,
             exists out c,
               forEach
                 (fun m acc =>
                    replacement <-
                      inlineImage cwd dirname (matched m) (groups m) ;;
                    ret (acc ++ before m ++ replacement))
                 ms acc (set_console (fun _ => c0) w)
               = (Returned out, set_console (fun _ => c) w)).
  { induction ms as [|m ms IH]; intros acc c0.
    - exists acc, c0. reflexivity.
    - cbn [forEach]. unfold bind at 1 2.
      destruct (inlineImage_console cwd dirname (matched m) (groups m)
                  (set_console (fun _ => c0) w)) as (t & c1 & ->).
      unfold ret at 1.
      destruct (IH (acc ++ before m ++ t) c1) as (out & c & Hrun).
      exists out, c. exact Hrun. }
  destruct (H [] (console w)) as (out & c & Hrun).
  rewrite <- set_console_id in Hrun.
  exists (out ++ tail), c. unfold bind at 1. now rewrite Hrun.
Qed.

(** C3, as amended: the browser a conversion launches is closed when the
    conversion returns.  Nothing closes it when the conversion throws: if
    the document was read and the browser launched, and then [newPage],
    [setContent] or [pdf] fails, the conversion throws and [browser.close]
    is never called, so the browser stays open.  Only a [browser.close]
    that throws itself can leave a conversion that throws with its browser
    closed. *)
Theorem browser_closed_when_conversion_returns (cwd dirname : jsstring)
    (marked_parse : jsstring -> jsstring) (fileName : jsstring)
    (format : PaperFormat) (w : World) :
  exists result w',
    convertMarkdownToPdf cwd dirname marked_parse fileName format w
    = (result, w')
    /\ match result with
       | Returned _ =>
           (launched w' = launched w /\ closed w' = closed w)
           \/ (launched w' = S (launched w) /\ closed w' = S (closed w))
       | Thrown _ =>
           (launched w' = launched w \/ launched w' = S (launched w))
           /\ (closed w' = closed w
               \/ (fault w NewPage || fault w SetContent || fault w PrintPdf
                   = false
                   /\ fault w CloseBrowser = true))
       end
    /\ (forall f,
          files w !! Path.join [INPUT_DIR cwd dirname; fileName] = Some f ->
          readable f = true ->
          fault w Launch = false ->
          fault w NewPage || fault w SetContent || fault w PrintPdf = true ->
          (exists e, result = Thrown e)
          /\ launched w' = S (launched w) /\ closed w' = closed w).
Proof.
  unfold convertMarkdownToPdf. cbv zeta.
  set (inputPath := Path.join [INPUT_DIR cwd dirname; fileName]).
  unfold bind at 1, existsSync, gets.
  destruct (files w !! inputPath) as [f|] eqn:Ef; simpl.
  2:{ eexists _, _. split; [reflexivity|]. simpl. split; [tauto|]. easy. }
  unfold readFileSync_utf8, readFile, bind at 1 2 3, gets. rewrite Ef.
  destruct (readable f) eqn:Er; simpl.
  2:{ eexists _, _. split; [reflexivity|]. simpl. split; [tauto|].
      intros f' [= <-]. congruence. }
  unfold bind at 1.
  destruct (inlineImages_console cwd dirname (text f) w) as (md & c & ->).
  unfold browser_launch, browser_newPage, page_setContent, page_pdf,
    browser_close, step, console_log, bind, gets, modify, throw, ret.
  simpl.
  destruct (fault w Launch) eqn:F1; simpl.
  { eexists _, _. split; [reflexivity|]. simpl. split; [tauto|]. easy. }
  destruct (fault w NewPage) eqn:F2; simpl.
  { eexists _, _. split; [reflexivity|]. simpl. split; [tauto|]. eauto. }
  destruct (fault w SetContent) eqn:F3; simpl.
  { eexists _, _. split; [reflexivity|]. simpl. split; [tauto|]. eauto. }
  destruct (fault w PrintPdf) eqn:F4; simpl.
  { eexists _, _. split; [reflexivity|]. simpl. split; [tauto|]. eauto. }
  destruct (outdir w) as [d|] eqn:Ed; simpl.
  2:{ eexists _, _. split; [reflexivity|]. simpl. split; [tauto|].
      intros f' _ _ _ H. discriminate H. }
  destruct (fault w CloseBrowser) eqn:F5; simpl.
  { destruct (closedOnFailure w); simpl;
      (eexists _, _; split; [reflexivity|]; simpl; split; [tauto|]);
      intros f' _ _ _ H; discriminate H. }
  eexists _, _. split; [reflexivity|]. simpl. split; [tauto|].
  intros f' _ _ _ H. discriminate H.
Qed.

(** C3, as stated, fails: when [page.setContent] fails, the conversion
    throws with one browser launched and none closed. *)
Lemma browser_left_open_counterexample :
  let w :=
    {| argv := argv Example.world; answer := answer Example.world;
       console := []; files := files Example.world;
       indir := indir Example.world; outdir := outdir Example.world;
       launched := 0; closed := 0; printed := [];
       fault := fun s => match s with SetContent => true | _ => false end;
       outfault := fun _ => false; closedOnFailure := false |} in
  let run :=
    convertMarkdownToPdf Example.cwd Example.dirname (fun markdown => markdown)
      (js "doc.md") A4 w in
  run.1 = Thrown (js "puppeteer") /\ launched run.2 = 1 /\ closed run.2 = 0.
Proof. cbv zeta. repeat split; vm_compute; reflexivity. Qed.

(** ** The sweep of the output directory *)

Local Arguments js : simpl never.

Lemma unlinked_lookup (d : gmap (list N) bool) (name other : jsstring) :
  unlinked d name !! other
  = if decide (other = name) then attempted (d !! name) else d !! other.
Proof.
  unfold unlinked, attempted. destruct (decide (other = name)) as [->|Hne].
  - destruct (d !! name) as [[|]|] eqn:E; [apply lookup_delete_eq|exact E..].
  - destruct (d !! name) as [[|]|]; [now apply lookup_delete_ne|reflexivity..].
Qed.

Lemma sweep_lookup (names : list jsstring) :
  forall (d : gmap (list N) bool) (other : jsstring),
  foldl unlinked d names !! other
  = if decide (other ∈ names) then attempted (d !! other) else d !! other.
Proof.
  induction names as [|name names IH]; intros d other; simpl.
  - destruct (decide (other ∈ [])) as [H|_]; [inversion H | reflexivity].
  - rewrite IH, unlinked_lookup.
    destruct (decide (other = name)) as [->|Hne].
    + destruct (decide (name ∈ name :: names)) as [_|Hn].
      2:{ exfalso. apply Hn, elem_of_cons. now left. }
      destruct (decide (name ∈ names)); [|reflexivity].
      now destruct (d !! name) as [[|]|].
    + destruct (decide (other ∈ names)) as [Hin|Hnin];
        destruct (decide (other ∈ name :: names)) as [Hin'|Hnin'];
        try reflexivity.
      * exfalso. apply Hnin', elem_of_cons. now right.
      * exfalso. apply elem_of_cons in Hin' as [H|H]; easy.
Qed.

Lemma reference_inlined_witness :
  inlineImage Example.cwd Example.dirname
    (referenceText (js "x") (js "./a.png")) [(1, js "./a.png"); (2, js "png")]
    Example.world
  = (Returned (js "![x](data:image/png;base64,TWFu)"), Example.world).
Proof.
  apply (reference_inlined Example.cwd Example.dirname Example.world
           (js "x") (js "./a.png") (js "png") [Byte.x4d; Byte.x61; Byte.x6e]).
  - split; [reflexivity|]. split.
    + apply list_elem_of_In. simpl. tauto.
    + exists (js "a"). split; reflexivity.
  - vm_compute. reflexivity.
  - reflexivity.
  - discriminate.
Defined.

(** ** The model run on examples

    The path functions on examples of Node's documentation and tests, the
    Base64 encoding on the examples of RFC 4648, and the program on a small
    world. *)

Example extname_examples :
  map (fun p => Path.extname (js p))
    ["index.html"; "index.coffee.md"; "index."; "index"; ".index";
     ".index.md"; "file.ext//"; ".."; "..."; "/app/markdown/.png"]%string
  = map js [".html"; ".md"; "."; ""; ""; ".md"; ".ext"; ""; "."; ""]%string.
Proof. vm_compute. reflexivity. Qed.

Example resolve_examples :
  map (fun args => Path.resolve (js "/home/me") (map js args))
    [["/foo/bar"; "./baz"]; ["/foo/bar"; "/tmp/file/"];
     ["wwwroot"; "static_files/png/"; "../gif/image.gif"];
     ["/var/lib"; "../"; "file/"]; ["/app/src"; "../markdown"]]%string
  = map js ["/foo/bar/baz"; "/tmp/file";
            "/home/me/wwwroot/static_files/gif/image.gif"; "/var/file";
            "/app/markdown"]%string.
Proof. vm_compute. reflexivity. Qed.

Example join_examples :
  map (fun args => Path.join (map js args))
    [["/foo"; "bar"; "baz/asdf"; "quux"; ".."]; ["/app/markdown"; "a.md"];
     ["foo"; "../../../bar"]; [""; ""]]%string
  = map js ["/foo/bar/baz/asdf"; "/app/markdown/a.md"; "../../bar"; "."]%string.
Proof. vm_compute. reflexivity. Qed.

Example base64_examples :
  map Base64.encode
    [[]; [Byte.x66]; [Byte.x66; Byte.x6f]; [Byte.x66; Byte.x6f; Byte.x6f];
     [Byte.x66; Byte.x6f; Byte.x6f; Byte.x62]; [Byte.xff; Byte.xfe; Byte.xfd]]
  = map js [""; "Zg=="; "Zm8="; "Zm9v"; "Zm9vYg=="; "//79"]%string.
Proof. vm_compute. reflexivity. Qed.

Example imageRegex_examples :
  map (fun s => (fun m => (before m, matched m, pathOf m)) <$> exec imageRegex (js s))
    ["see ![logo](./images/logo.png)!"; "![a](./p.jpeg)"; "![a](./p.PNG)";
     "![a](images/p.png)"; "![a](./x.txt) and ![b](./y.gif)"]%string
  = [Some (js "see ", js "![logo](./images/logo.png)", js "./images/logo.png");
     Some ([], js "![a](./p.jpeg)", js "./p.jpeg");
     None; None;
     Some ([], js "![a](./x.txt) and ![b](./y.gif)",
           js "./x.txt) and ![b](./y.gif")].
Proof. vm_compute. reflexivity. Qed.

(** Two references, the file of the second one missing: the first is
    inlined, the second stays, and the failure is logged. *)
Example inline_example :
  inlineImages Example.cwd Example.dirname
    (js "# T ![x](./a.png) and ![y](./b.png).") Example.world
  = (Returned (js "# T ![x](data:image/png;base64,TWFu) and ![y](./b.png)."),
     set_console
       (fun _ => [(Stderr, js "Erro ao converter imagem: /app/markdown/b.png")])
       Example.world).
Proof. vm_compute. reflexivity. Qed.

Example outputFileName_examples :
  map (fun p => outputFileName (js p.1) p.2)
    [("a.md", A4); ("notes.v2.md", A2); ("a.md.md", A5); ("readme.txt", A3)]%string
  = map js ["a.a4.pdf"; "notes.v2.a2.pdf"; "a.md.a5.pdf"; "readme.txt"]%string.
Proof. vm_compute. reflexivity. Qed.

(** A run of the whole program: [a5] on the command line, an output
    directory with an old PDF, a PDF that cannot be removed and another
    file, and an input directory with one document. *)
Example main_example :
  let w :=
    {| argv := [js "node"; js "index.js"; js "--format=a5"];
       answer := [];
       console := [];
       files := files Example.world;
       indir := Some [js "doc.md"; js "notes.txt"];
       outdir :=
         Some {[ js "old.a4.pdf" := true; js "locked.pdf" := false;
                 js "keep.txt" := true ]};
       launched := 0; closed := 0; printed := [];
       fault := fun _ => false;
       outfault := fun _ => false; closedOnFailure := false |} in
  let run := main Example.cwd Example.dirname asciiUpperCase (fun md => md) w in
  run.1 = Returned tt
  /\ outdir run.2
     = Some {[ js "doc.a5.pdf" := true; js "locked.pdf" := false;
               js "keep.txt" := true ]}
  /\ launched run.2 = 1 /\ closed run.2 = 1
  /\ map (fun p => pdf_path p.2) (printed run.2) = [js "/app/output/doc.a5.pdf"].
Proof. cbv zeta. repeat split; vm_compute; reflexivity. Qed.

(** ** Further properties *)

(** A document in which a reference occurs has at least one match: the
    inliner does not pass over a document that holds a local image. *)
Theorem reference_is_found (markdown pre alt path ext post : jsstring) :
  imageReference alt path ext ->
  markdown = pre ++ referenceText alt path ++ post ->
  (matchAll imageRegex markdown).1 <> [].
Proof.
  intros Href Hs. unfold matchAll. cbn [matchAll_fuel].
  destruct (exec imageRegex markdown) as [m|] eqn:E.
  - destruct (matched m); [destruct (after m)|].
    + discriminate.
    + destruct (matchAll_fuel _ _ _) as [[|m' ms] tail]; discriminate.
    + destruct (matchAll_fuel _ _ _) as [ms tail]. discriminate.
  - exfalso.
    apply (exec_complete _ _ E pre (referenceText alt path) post []
             [(1, path); (2, ext)] Hs).
    apply imageRegex_matches. exists alt, path, ext. easy.
Qed.

Lemma reference_is_found_witness :
  (matchAll imageRegex (js "see ![x](./a.png)!")).1 <> [].
Proof.
  apply (reference_is_found _ (js "see ") (js "x") (js "./a.png") (js "png")
           (js "!")).
  - split; [reflexivity|]. split.
    + apply list_elem_of_In. simpl. tauto.
    + exists (js "a"). split; reflexivity.
  - reflexivity.
Defined.

(** A [--format=] argument that names a format, in upper or lower case, is
    taken without a prompt and without a line on the console. *)
Theorem valid_format_is_taken (toUpperCase : jsstring -> jsstring)
    (w : World) (formatArg : jsstring) (format : PaperFormat) :
  find (fun arg => startsWith arg (js "--format=")) (drop 2 (argv w))
  = Some formatArg ->
  (toUpperCase <$> split 61 formatArg !! 1) ≫= formatOfString = Some format ->
  getFormatFromArgs toUpperCase w = (Returned (Some format), w)
  /\ selectFormat toUpperCase w = (Returned format, w).
Proof.
  intros Hfind Hgood.
  assert (Hget : getFormatFromArgs toUpperCase w = (Returned (Some format), w)).
  { unfold getFormatFromArgs, bind at 1, gets. now rewrite Hfind, Hgood. }
  split; [exact Hget|]. unfold selectFormat, bind. now rewrite Hget.
Qed.

Lemma valid_format_is_taken_witness :
  let w :=
    {| argv := [js "node"; js "index.js"; js "-v"; js "--format=a3"];
       answer := js "1"; console := []; files := ∅; indir := None;
       outdir := None; launched := 0; closed := 0; printed := [];
       fault := fun _ => false;
       outfault := fun _ => false; closedOnFailure := false |} in
  selectFormat asciiUpperCase w = (Returned A3, w).
Proof.
  cbv zeta.
  apply (valid_format_is_taken asciiUpperCase _ (js "--format=a3") A3);
    reflexivity.
Defined.

(** With [--help] or [-h] on the command line the program writes its
    banner and the help text, with the four formats and their
    descriptions, and stops: no directory is touched and no browser
    launched. *)
Theorem help_stops_the_run (cwd dirname : jsstring)
    (toUpperCase marked_parse : jsstring -> jsstring) (w : World) :
  js "--help" ∈ argv w \/ js "-h" ∈ argv w ->
  main cwd dirname toUpperCase marked_parse w
  = (Returned tt,
     set_console
       (fun c => (c ++ [(Stdout, bannerLine)]) ++ [(Stdout, helpText)]) w).
Proof.
  intros Hflag. unfold main. unfold bind at 1, console_log at 1, modify.
  unfold bind at 1, gets. cbn [argv set_console].
  assert (E : bool_decide (js "--help" ∈ argv w)
              || bool_decide (js "-h" ∈ argv w) = true).
  { apply orb_true_iff. destruct Hflag as [H|H]; [left|right];
      now apply bool_decide_eq_true. }
  rewrite E. unfold showHelp, console_log, modify.
  match goal with
  | |- (_, set_console (fun c => c ++ [(Stdout, ?text)]) _) = _ =>
      assert (Et : text = helpText) by (vm_compute; reflexivity);
      rewrite Et
  end.
  reflexivity.
Qed.

Lemma help_stops_the_run_witness :
  let w :=
    {| argv := [js "node"; js "index.js"; js "--format=A4"; js "-h"];
       answer := []; console := []; files := ∅; indir := None;
       outdir := None; launched := 0; closed := 0; printed := [];
       fault := fun _ => false;
       outfault := fun _ => false; closedOnFailure := false |} in
  main Example.cwd Example.dirname asciiUpperCase (fun md => md) w
  = (Returned tt,
     set_console
       (fun c => (c ++ [(Stdout, bannerLine)]) ++ [(Stdout, helpText)]) w).
Proof.
  cbv zeta. apply help_stops_the_run. right.
  apply list_elem_of_In. simpl. tauto.
Defined.

(** ** What the inliner does to the world *)

Lemma inline_forEach_effect (cwd dirname : jsstring) (w : World)
    (ms : list MatchResult) :
  forall acc c,
    forEach
      (fun m acc =>
         replacement <- inlineImage cwd dirname (matched m) (groups m) ;;
         ret (acc ++ before m ++ replacement))
      ms acc (set_console (fun _ => c) w)
    = (Returned
         (acc ++ concat (zip_with (fun m t => before m ++ t) ms
                           (map (inlinedText cwd dirname w) ms))),
       set_console (fun _ => c ++ readFailures cwd dirname w ms) w).
Proof.
  induction ms as [|m ms IH]; intros acc c.
  - unfold readFailures. simpl. unfold ret. now rewrite !app_nil_r.
  - cbn [forEach]. unfold bind at 1 2.
    unfold readFailures, inlinedText. cbn [map concat zip_with].
    fold (inlinedText cwd dirname w).
    destruct (readImage w (imageFile cwd dirname (pathOf m))) as [bs|] eqn:E.
    + rewrite (inlineImage_readable cwd dirname (matched m) (groups m)
                 (set_console (fun _ => c) w) bs E).
      unfold ret at 1. rewrite IH. unfold readFailures.
      now rewrite <- !app_assoc.
    + rewrite (inlineImage_unreadable cwd dirname (matched m) (groups m)
                 (set_console (fun _ => c) w) E).
      unfold ret at 1.
      change (set_console _ (set_console (fun _ => c) w))
        with (set_console
                (fun _ => c ++ [(Stderr, js "Erro ao converter imagem: "
                                         ++ imageFile cwd dirname (pathOf m))])
                w).
      rewrite IH. unfold readFailures.
      now rewrite <- !app_assoc.
Qed.


(** The inliner returns the document with, in place of each match, the
    match with its image inlined, or the match itself when the image cannot
    be read; it logs one line for each match whose image cannot be read, in
    the order of the document, and changes nothing else in the world. *)
Theorem inliner_effect (cwd dirname markdown : jsstring) (w : World) :
  inlineImages cwd dirname markdown w
  = (Returned
       (assemble (matchAll imageRegex markdown).1
          (map (inlinedText cwd dirname w) (matchAll imageRegex markdown).1)
          (matchAll imageRegex markdown).2),
     set_console
       (fun c => c ++ readFailures cwd dirname w (matchAll imageRegex markdown).1)
       w).
Proof.
  unfold inlineImages, replaceAll.
  destruct (matchAll imageRegex markdown) as [ms tail]. cbn [fst snd].
  unfold bind at 1. rewrite (set_console_id w) at 1.
  rewrite inline_forEach_effect. reflexivity.
Qed.

(** A match of the inliner lies within one line: a reference whose alt
    text or path runs over a line end is not one. *)
Theorem match_within_line (markdown : jsstring) (m : MatchResult) :
  m ∈ (matchAll imageRegex markdown).1 -> noLineTerminator (matched m).
Proof.
  intros Hm. apply matchAll_imageRegex in Hm
    as (alt & path & ext & (Halt & Hext & mid & Hmid & ->) & -> & _).
  unfold referenceText, noLineTerminator in *.
  rewrite !forallb_app, Halt, Hmid.
  unfold imageExtensions in Hext. rewrite !elem_of_cons, elem_of_nil in Hext.
  destruct Hext as [->|[->|[->|[->|[->|[]]]]]]; reflexivity.
Qed.

Lemma match_within_line_witness :
  noLineTerminator (js "![x](./a.png)").
Proof.
  apply (match_within_line (js "see ![x](./a.png) here")
           {| before := js "see "; matched := js "![x](./a.png)";
              groups := [(1, js "./a.png"); (2, js "png")];
              after := js " here" |}).
  vm_compute. constructor.
Defined.

(** ** The names of the documents written *)

Lemma outputFileName_md (stem : jsstring) (format : PaperFormat) :
  outputFileName (stem ++ js ".md") format
  = stem ++ js "." ++ toLowerCase (formatName format) ++ js ".pdf".
Proof.
  unfold outputFileName, replaceFirst. rewrite exec_mdRegex. simpl after.
  rewrite getSubstitution_plain.
  - now rewrite app_nil_r.
  - intros H. apply list_elem_of_In in H.
    destruct format; vm_compute in H;
      repeat destruct H as [H|H]; try discriminate H; exact H.
Qed.

Lemma exec_mdRegex_other (name : jsstring) :
  endsWith name (js ".md") = false -> exec mdRegex name = None.
Proof.
  intros Hend. destruct (exec mdRegex name) as [m|] eqn:E; [|reflexivity].
  apply exec_sound in E as [Hs Hm].
  apply mdRegex_matches in Hm as [Hw Hr].
  assert (H : endsWith name (js ".md") = true).
  { apply endsWith_spec. exists (before m).
    rewrite Hs, Hw, Hr. now rewrite app_nil_r. }
  congruence.
Qed.

Lemma suffix_of_format (f1 f2 : PaperFormat) (s1 s2 : jsstring) :
  s1 ++ js "." ++ toLowerCase (formatName f1) ++ js ".pdf"
  = s2 ++ js "." ++ toLowerCase (formatName f2) ++ js ".pdf" ->
  s1 = s2 /\ f1 = f2.
Proof.
  intros H.
  assert (Hl : length s1 = length s2).
  { apply (f_equal (@length N)) in H. rewrite !length_app in H.
    destruct f1, f2; simpl in H; lia. }
  apply app_inj_1 in H as [-> H]; [|exact Hl].
  split; [reflexivity|]. destruct f1, f2; try reflexivity; discriminate H.
Qed.

(** The PDF of a Markdown document has a name that ends in [.pdf], so the
    cleanup of the next run finds it, and the name tells the document and
    the format: no two documents, and no two formats of one document, are
    written to the same file. *)
Theorem outputFileName_injective (name1 name2 : jsstring)
    (format1 format2 : PaperFormat) :
  endsWith name1 (js ".md") = true ->
  endsWith name2 (js ".md") = true ->
  endsWith (outputFileName name1 format1) (js ".pdf") = true
  /\ (outputFileName name1 format1 = outputFileName name2 format2 ->
      name1 = name2 /\ format1 = format2).
Proof.
  intros H1 H2.
  apply endsWith_spec in H1 as [s1 ->]. apply endsWith_spec in H2 as [s2 ->].
  rewrite !outputFileName_md. split.
  - apply endsWith_spec.
    exists (s1 ++ js "." ++ toLowerCase (formatName format1)).
    now rewrite <- !app_assoc.
  - intros H. apply suffix_of_format in H as [-> ->]. easy.
Qed.

Lemma outputFileName_injective_witness :
  endsWith (outputFileName (js "a.md") A4) (js ".pdf") = true
  /\ (outputFileName (js "a.md") A4 = outputFileName (js "a.a4.md") A5 ->
      js "a.md" = js "a.a4.md" /\ A4 = A5).
Proof.
  apply (outputFileName_injective (js "a.md") (js "a.a4.md") A4 A5);
    reflexivity.
Defined.

(** A name that does not end in [.md] is its own output name: the
    conversion of such a document would write the PDF under the name of
    the source. *)
Theorem outputFileName_other (name : jsstring) (format : PaperFormat) :
  endsWith name (js ".md") = false -> outputFileName name format = name.
Proof.
  intros H. unfold outputFileName, replaceFirst.
  now rewrite (exec_mdRegex_other name H).
Qed.

Lemma outputFileName_other_witness :
  outputFileName (js "notes.md.txt") A3 = js "notes.md.txt".
Proof. apply outputFileName_other. reflexivity. Defined.

(** ** The cleanup: what it leaves and what it reports *)

Lemma filter_ext_elem {A} (P Q : A -> Prop)
    `{!forall x, Decision (P x), !forall x, Decision (Q x)} (l : list A) :
  (forall x, x ∈ l -> P x <-> Q x) -> filter P l = filter Q l.
Proof.
  induction l as [|x l IH]; intros Hext; [reflexivity|].
  rewrite !filter_cons.
  assert (Hx : P x <-> Q x) by (apply Hext; now left).
  rewrite IH by (intros y Hy; apply Hext; now right).
  destruct (decide (P x)), (decide (Q x)); tauto.
Qed.

Lemma pdfNames_elem (d : gmap (list N) bool) (name : jsstring) :
  name ∈ pdfNames d
  <-> endsWith name (js ".pdf") = true /\ is_Some (d !! name).
Proof.
  unfold pdfNames. rewrite list_elem_of_filter, list_elem_of_fmap.
  rewrite Is_true_true. split.
  - intros [He ([n b] & -> & Hin)]. split; [exact He|].
    apply elem_of_map_to_list in Hin. simpl. eauto.
  - intros [He [b Hb]]. split; [exact He|]. exists (name, b).
    split; [reflexivity|]. now apply elem_of_map_to_list.
Qed.

Lemma pdfNames_NoDup (d : gmap (list N) bool) : NoDup (pdfNames d).
Proof. apply NoDup_filter, NoDup_fst_map_to_list. Qed.

Lemma sweptDir_lookup (d : gmap (list N) bool) (name : jsstring) :
  sweptDir d !! name
  = if endsWith name (js ".pdf") then attempted (d !! name) else d !! name.
Proof.
  unfold sweptDir. apply option_eq. intros b.
  rewrite map_lookup_filter_Some. cbn [fst snd].
  destruct (endsWith name (js ".pdf")); cbn [andb negb].
  - destruct (d !! name) as [[|]|]; simpl; split;
      try (intros [[= <-] H]); try (intros [= <-]); try easy.
  - split; [now intros [H _] | now intros H].
Qed.

Lemma sweep_pdfNames (d : gmap (list N) bool) :
  foldl unlinked d (pdfNames d) = sweptDir d.
Proof.
  apply map_eq. intros name. rewrite sweep_lookup, sweptDir_lookup.
  destruct (decide (name ∈ pdfNames d)) as [Hin|Hnin].
  - apply pdfNames_elem in Hin as [-> _]. reflexivity.
  - destruct (endsWith name (js ".pdf")) eqn:He; [|reflexivity].
    destruct (d !! name) as [b|] eqn:Eb; [|reflexivity].
    exfalso. apply Hnin, pdfNames_elem. eauto.
Qed.

Lemma sweptDir_idemp (d : gmap (list N) bool) :
  sweptDir (sweptDir d) = sweptDir d.
Proof.
  apply map_eq. intros name. rewrite !sweptDir_lookup.
  destruct (endsWith name (js ".pdf")); [|reflexivity].
  now destruct (d !! name) as [[|]|].
Qed.

Lemma world_eta (w : World) :
  w = set_outdir (outdir w) (set_console (fun _ => console w) w).
Proof. now destruct w. Qed.

(** The loop of the cleanup counts the entries it removes and touches the
    console and the directory only. *)
Lemma sweep_effect (names : list jsstring) :
  NoDup names ->
  forall (count : nat) (w : World) (d : gmap (list N) bool),
  outdir w = Some d ->
  exists c,
    forEach
      (fun file removedCount =>
         tryCatch
           (outdir_unlink file ;;
            console_log ([55357; 56785; 65039]%N ++ js "  Removido: " ++ file) ;;
            ret (S removedCount))
           (fun error =>
              console_error
                ([10060]%N ++ js " Erro ao remover " ++ file ++ js ": "
                 ++ error) ;;
              ret removedCount))
      names count w
    = (Returned (count + length (removable d names)),
       set_outdir (Some (foldl unlinked d names))
         (set_console (fun _ => c) w)).
Proof.
  match goal with
  | |- context [forEach ?b names] => set (body := b)
  end.
  induction names as [|name names IH]; intros Hnd count w d Hd.
  - exists (console w). cbn [forEach foldl]. unfold ret, removable.
    rewrite filter_nil. cbn [length]. rewrite Nat.add_0_r, <- Hd.
    now rewrite <- world_eta.
  - apply NoDup_cons in Hnd as [Hnotin Hnd].
    cbn [forEach foldl]. unfold bind at 1.
    assert (Hrem : removable (unlinked d name) names = removable d names).
    { apply filter_ext_elem. intros x Hx. rewrite unlinked_lookup.
      destruct (decide (x = name)) as [->|_]; [contradiction|reflexivity]. }
    unfold removable at 1. rewrite filter_cons. fold (removable d names).
    destruct (d !! name) as [[|]|] eqn:E.
    + assert (Hstep :
        body name count w
        = (Returned (S count),
           set_console
             (fun c => c ++ [(Stdout, [55357; 56785; 65039]%N
                                      ++ js "  Removido: " ++ name)])
             (set_outdir (Some (unlinked d name)) w))).
      { unfold body, tryCatch, outdir_unlink, console_log, bind, gets,
          modify, ret, unlinked. rewrite Hd, E. reflexivity. }
      rewrite Hstep.
      match goal with
      | |- context [forEach body names _ ?w1] =>
          destruct (IH Hnd (S count) w1 (unlinked d name) eq_refl) as [c Hrun]
      end.
      rewrite Hrun, Hrem. exists c.
      destruct (decide (Some true = Some true)) as [_|Hne]; [|congruence].
      cbn [length]. f_equal. f_equal. lia.
    + assert (Hstep :
        body name count w
        = (Returned count,
           set_console
             (fun c => c ++ [(Stderr, [10060]%N ++ js " Erro ao remover "
                                      ++ name ++ js ": " ++ js "EPERM: "
                                      ++ name)])
             (set_outdir (Some (unlinked d name)) w))).
      { unfold body, tryCatch, outdir_unlink, console_error, bind, gets,
          modify, ret, throw, unlinked. rewrite Hd, E.
        rewrite <- Hd. now destruct w. }
      rewrite Hstep.
      match goal with
      | |- context [forEach body names _ ?w1] =>
          destruct (IH Hnd count w1 (unlinked d name) eq_refl) as [c Hrun]
      end.
      rewrite Hrun, Hrem. exists c.
      destruct (decide (Some false = Some true)) as [Heq|_]; [congruence|].
      reflexivity.
    + assert (Hstep :
        body name count w
        = (Returned count,
           set_console
             (fun c => c ++ [(Stderr, [10060]%N ++ js " Erro ao remover "
                                      ++ name ++ js ": " ++ js "ENOENT: "
                                      ++ name)])
             (set_outdir (Some (unlinked d name)) w))).
      { unfold body, tryCatch, outdir_unlink, console_error, bind, gets,
          modify, ret, throw, unlinked. rewrite Hd, E.
        rewrite <- Hd. now destruct w. }
      rewrite Hstep.
      match goal with
      | |- context [forEach body names _ ?w1] =>
          destruct (IH Hnd count w1 (unlinked d name) eq_refl) as [c Hrun]
      end.
      rewrite Hrun, Hrem. exists c.
      destruct (decide (None = Some true)) as [Heq|_]; [congruence|].
      reflexivity.
Qed.

(** The cleanup returns; it leaves the directory cleaned, ends its log with
    the report, or with the error when it fails as a whole, and touches
    nothing else. *)
Lemma cleanOutputDir_effect (cwd dirname : jsstring) (w : World) :
  exists c line,
    cleanOutputDir cwd dirname w
    = (Returned tt,
       afterRun w (c ++ [line]) (cleaned w) (launched w) (closed w)
         (printed w))
    /\ (cleanupFails w = false ->
        line = (Stdout, cleanupReport cwd dirname (outdir w)))
    /\ (cleanupFails w = true ->
        exists error, line = (Stderr, cleanupError error)).
Proof.
  assert (Hlog : forall line w0,
             console_log line w0
             = (Returned tt, set_console (fun c => c ++ [(Stdout, line)]) w0))
    by reflexivity.
  unfold cleanOutputDir, cleaned, cleanupFails.
  destruct (outdir w) as [d|] eqn:Ed.
  2:{ destruct (outfault w MakeDirectory) eqn:Em.
      - exists (console w). eexists. split; [|split; [discriminate|eauto]].
        unfold tryCatch.
        rewrite (bind_run outdir_exists _ w false w)
          by (unfold outdir_exists, gets; now rewrite Ed).
        cbn [negb]. cbv iota.
        rewrite (bind_thrown outdir_mkdir _ w (js "EACCES: mkdir") w)
          by (unfold outdir_mkdir, bind, gets, throw; now rewrite Ed, Em).
        unfold console_error, modify, set_console, afterRun, cleanupError.
        now rewrite Ed.
      - exists (console w). eexists. split; [|split; [reflexivity|discriminate]].
        apply tryCatch_returned.
        rewrite (bind_run outdir_exists _ w false w)
          by (unfold outdir_exists, gets; now rewrite Ed).
        cbn [negb]. cbv iota.
        rewrite (bind_run outdir_mkdir _ w tt (set_outdir (Some ∅) w))
          by (unfold outdir_mkdir, bind, gets, modify; now rewrite Ed, Em).
        apply Hlog. }
  destruct (outfault w ListDirectory) eqn:El.
  { exists (console w). eexists. split; [|split; [discriminate|eauto]].
    unfold tryCatch.
    rewrite (bind_run outdir_exists _ w true w)
      by (unfold outdir_exists, gets; now rewrite Ed).
    cbn [negb]. cbv iota.
    rewrite (bind_thrown outdir_readdir _ w (js "EACCES: scandir") w)
      by (unfold outdir_readdir, bind, gets, throw; now rewrite Ed, El).
    unfold console_error, modify, set_console, afterRun, cleanupError.
    now rewrite Ed. }
  rewrite <- sweep_pdfNames.
  match goal with
  | |- exists c line, tryCatch ?body _ w = _ /\ _ =>
      assert (Hbody :
        exists c,
          body w
          = (Returned tt,
             afterRun w (c ++ [(Stdout, cleanupReport cwd dirname (Some d))])
               (Some (foldl unlinked d (pdfNames d)))
               (launched w) (closed w) (printed w)))
  end.
  { rewrite (bind_run outdir_exists _ w true w)
      by (unfold outdir_exists, gets; now rewrite Ed).
    cbn [negb]. cbv iota.
    rewrite (bind_run outdir_readdir _ w (map fst (map_to_list d)) w)
      by (unfold outdir_readdir, bind, gets, ret; now rewrite Ed, El).
    cbv zeta. fold (pdfNames d). unfold cleanupReport.
    destruct (pdfNames d) as [|name names] eqn:En.
    - exists (console w). cbn [length Nat.eqb foldl]. cbv iota. rewrite Hlog.
      unfold set_console, afterRun. now rewrite Ed.
    - cbn [length Nat.eqb]. cbv iota.
      destruct (sweep_effect (name :: names)
                  ltac:(rewrite <- En; apply pdfNames_NoDup) 0 w d Ed)
        as [c Hrun].
      rewrite (bind_run _ _ w _ _ Hrun), Hlog. exists c. reflexivity. }
  destruct Hbody as [c Hrun].
  exists c, (Stdout, cleanupReport cwd dirname (Some d)).
  split; [now apply tryCatch_returned|]. split; [reflexivity|discriminate].
Qed.

(** C7, as amended: the cleanup returns for every state of the output
    directory.  When the directory is absent and can be made it is made,
    empty; when it is there and can be listed, an entry whose name ends in
    [.pdf] is gone afterwards when it can be removed and stays when its
    removal fails, whatever happens to the other entries, and every other
    entry stays as it is.  When the directory cannot be made or cannot be
    listed the cleanup still returns, and the directory is as it was. *)
Theorem cleanup_removes_the_pdfs (cwd dirname : jsstring) (w : World) :
  exists w',
    cleanOutputDir cwd dirname w = (Returned tt, w')
    /\ match outdir w with
       | None =>
           outdir w' = if outfault w MakeDirectory then None else Some ∅
       | Some d =>
           if outfault w ListDirectory then outdir w' = Some d
           else
             exists d',
               outdir w' = Some d'
               /\ forall name,
                    d' !! name
                    = if endsWith name (js ".pdf") then attempted (d !! name)
                      else d !! name
       end.
Proof.
  destruct (cleanOutputDir_effect cwd dirname w) as (c & line & Hrun & _).
  eexists. split; [exact Hrun|]. cbn [afterRun outdir].
  unfold cleaned, cleanupFails. destruct (outdir w) as [d|].
  - destruct (outfault w ListDirectory); [reflexivity|].
    exists (sweptDir d). split; [reflexivity | apply sweptDir_lookup].
  - now destruct (outfault w MakeDirectory).
Qed.

(** C7, as stated, fails: a directory that is there and cannot be listed
    keeps its PDFs, and a directory that is absent and cannot be made stays
    absent. *)
Lemma unlistable_directory_counterexample :
  let unlistable :=
    {| argv := []; answer := []; console := []; files := ∅; indir := None;
       outdir := Some {[ js "old.a4.pdf" := true ]};
       launched := 0; closed := 0; printed := [];
       fault := fun _ => false;
       outfault := fun s =>
                     match s with ListDirectory => true | _ => false end;
       closedOnFailure := false |} in
  let unmakeable :=
    {| argv := []; answer := []; console := []; files := ∅; indir := None;
       outdir := None;
       launched := 0; closed := 0; printed := [];
       fault := fun _ => false;
       outfault := fun s =>
                     match s with MakeDirectory => true | _ => false end;
       closedOnFailure := false |} in
  let sweep := cleanOutputDir Example.cwd Example.dirname in
  (sweep unlistable).1 = Returned tt
  /\ outdir (sweep unlistable).2 ≫= (fun d => d !! js "old.a4.pdf") = Some true
  /\ (sweep unmakeable).1 = Returned tt
  /\ outdir (sweep unmakeable).2 = None.
Proof. cbv zeta. repeat split; vm_compute; reflexivity. Qed.

(** ** The format of the run and the console *)

Lemma console_log_run (line : jsstring) (w : World) :
  console_log line w
  = (Returned tt, set_console (fun c => c ++ [(Stdout, line)]) w).
Proof. reflexivity. Qed.

Lemma console_log_more (line : jsstring) (c0 lines : list (stream * jsstring))
    (w : World) :
  console_log line (set_console (fun _ => c0 ++ lines) w)
  = (Returned tt, set_console (fun _ => c0 ++ lines ++ [(Stdout, line)]) w).
Proof.
  unfold console_log, modify. cbn [set_console console]. now rewrite app_assoc.
Qed.

Lemma console_log_first (line : jsstring) (c0 : list (stream * jsstring))
    (w : World) :
  console_log line (set_console (fun _ => c0) w)
  = (Returned tt, set_console (fun _ => c0 ++ [(Stdout, line)]) w).
Proof. reflexivity. Qed.

Lemma gets_run {A} (f : World -> A) (w : World) : gets f w = (Returned (f w), w).
Proof. reflexivity. Qed.

(** Running the first command of a sequence on the world of the goal. *)
Tactic Notation "run" uconstr(H) :=
  match goal with
  | |- context [bind ?m ?k ?w] => rewrite (bind_run m k w _ _ H)
  end.

(** The prompt writes its menu and then chooses from the line typed; the
    warning is no line of the menu. *)
Lemma promptForFormat_menu (w : World) :
  exists menu,
    ((Stdout, promptWarning) ∉ menu)
    /\ forall c0,
         promptForFormat (set_console (fun _ => c0) w)
         = (let choice :=
              match trim (answer w) with [] => js "3" | t => t end in
            if str_eqb choice (js "1") then ret A2
            else if str_eqb choice (js "2") then ret A3
            else if str_eqb choice (js "3") then ret A4
            else if str_eqb choice (js "4") then ret A5
            else
              console_log promptWarning ;;
              ret A4) (set_console (fun _ => c0 ++ menu) w).
Proof.
  eexists. split.
  2:{ intros c0. unfold promptForFormat.
      run (console_log_first _ c0 w).
      do 6 run (console_log_more _ c0 _ w).
      run (gets_run answer (set_console (fun _ => c0 ++ _) w)).
      reflexivity. }
  cbn [app]. intros H.
  repeat (apply elem_of_cons in H as [H|H];
          [vm_compute in H; discriminate H|]).
  inversion H.
Qed.

(** The prompt returns a format and adds its lines to the console; the
    format and the lines depend on the line typed only. *)
Lemma promptForFormat_run (w : World) :
  exists format lines,
    forall c0,
      promptForFormat (set_console (fun _ => c0) w)
      = (Returned format, set_console (fun _ => c0 ++ lines) w).
Proof.
  destruct (promptForFormat_menu w) as (menu & _ & Hmenu).
  destruct (trim (answer w)) as [|ch t].
  { exists A4, menu. intros c0. rewrite (Hmenu c0).
    reflexivity. }
  cbv zeta in Hmenu.
  destruct (str_eqb (ch :: t) (js "1")).
  { exists A2, menu. intros c0. now rewrite (Hmenu c0). }
  destruct (str_eqb (ch :: t) (js "2")).
  { exists A3, menu. intros c0. now rewrite (Hmenu c0). }
  destruct (str_eqb (ch :: t) (js "3")).
  { exists A4, menu. intros c0. now rewrite (Hmenu c0). }
  destruct (str_eqb (ch :: t) (js "4")).
  { exists A5, menu. intros c0. now rewrite (Hmenu c0). }
  exists A4, (menu ++ [(Stdout, promptWarning)]). intros c0.
  rewrite (Hmenu c0).
  run (console_log_more promptWarning c0 menu w). reflexivity.
Qed.

Lemma selectFormat_run (toUpperCase : jsstring -> jsstring) (w : World) :
  exists format lines,
    forall c0,
      selectFormat toUpperCase (set_console (fun _ => c0) w)
      = (Returned format, set_console (fun _ => c0 ++ lines) w).
Proof.
  destruct (promptForFormat_run w) as (pf & plines & Hp).
  assert (Hget :
    (exists format,
        forall c0,
          getFormatFromArgs toUpperCase (set_console (fun _ => c0) w)
          = (Returned (Some format), set_console (fun _ => c0 ++ []) w))
    \/ (exists lines,
          forall c0,
            getFormatFromArgs toUpperCase (set_console (fun _ => c0) w)
            = (Returned None, set_console (fun _ => c0 ++ lines) w))).
  { unfold getFormatFromArgs.
    destruct (find (fun arg => startsWith arg (js "--format="))
                (drop 2 (argv w))) as [formatArg|] eqn:Ef.
    2:{ right. exists []. intros c0.
        run (gets_run argv (set_console (fun _ => c0) w)).
        cbv zeta. cbn [argv set_console]. rewrite Ef, app_nil_r. reflexivity. }
    destruct ((toUpperCase <$> split 61 formatArg !! 1) ≫= formatOfString)
      as [format|] eqn:Eg.
    - left. exists format. intros c0.
      run (gets_run argv (set_console (fun _ => c0) w)).
      cbv zeta. cbn [argv set_console]. rewrite Ef, Eg, app_nil_r.
      reflexivity.
    - right. eexists. intros c0.
      run (gets_run argv (set_console (fun _ => c0) w)).
      cbv zeta. cbn [argv set_console]. rewrite Ef, Eg.
      run (console_log_first _ c0 w). reflexivity. }
  unfold selectFormat. destruct Hget as [[format Hget]|[lines Hget]].
  - exists format, []. intros c0. run (Hget c0). reflexivity.
  - exists pf, (lines ++ plines). intros c0. run (Hget c0).
    rewrite app_assoc. apply Hp.
Qed.

(** ** One conversion *)

Lemma existsSync_run (p : jsstring) (w : World) :
  existsSync p w = (Returned (bool_decide (is_Some (files w !! p))), w).
Proof. reflexivity. Qed.

Lemma readFileSync_utf8_run (p : jsstring) (w : World) (f : File) :
  files w !! p = Some f -> readable f = true ->
  readFileSync_utf8 p w = (Returned (text f), w).
Proof.
  intros Hf Hr. unfold readFileSync_utf8, readFile, bind, gets.
  now rewrite Hf, Hr.
Qed.

Lemma readFileSync_utf8_thrown (p : jsstring) (w : World) (f : File) :
  files w !! p = Some f -> readable f = false ->
  readFileSync_utf8 p w = (Thrown (js "EACCES: " ++ p), w).
Proof.
  intros Hf Hr. unfold readFileSync_utf8, readFile, bind, gets.
  now rewrite Hf, Hr.
Qed.

Lemma step_run (s : Step) (w : World) :
  fault w s = false -> step s w = (Returned tt, w).
Proof. intros H. unfold step, bind, gets. now rewrite H. Qed.

Lemma browser_launch_run (w : World) :
  fault w Launch = false ->
  browser_launch w
  = (Returned tt, set_browser (S (launched w)) (closed w) (printed w) w).
Proof.
  intros H. unfold browser_launch.
  now rewrite (bind_run _ _ w tt w (step_run _ _ H)).
Qed.

Lemma page_pdf_run (name html : jsstring) (options : PdfOptions) (w : World)
    (d : gmap (list N) bool) :
  fault w PrintPdf = false -> outdir w = Some d ->
  page_pdf name html options w
  = (Returned tt,
     set_browser (launched w) (closed w) ((html, options) :: printed w)
       (set_outdir (Some (<[name := true]> d)) w)).
Proof.
  intros H Hd. unfold page_pdf.
  rewrite (bind_run _ _ w tt w (step_run _ _ H)).
  rewrite (bind_run _ _ w _ w (gets_run outdir w)). rewrite Hd. reflexivity.
Qed.

Lemma browser_close_run (w : World) :
  fault w CloseBrowser = false ->
  browser_close w
  = (Returned tt, set_browser (launched w) (S (closed w)) (printed w) w).
Proof.
  intros H. unfold browser_close, bind at 1, gets. now rewrite H.
Qed.

(** Running the first command of a sequence, its result found by a
    tactic. *)
Tactic Notation "step" tactic3(t) :=
  match goal with
  | |- context [bind ?m ?k ?w] => erewrite (bind_run m k w) by t
  end.

Section Conversion.
Variable cwd : jsstring.
Variable dirname : jsstring.
Variable marked_parse : jsstring -> jsstring.

(** A document that is not there is reported and passed over. *)
Lemma convert_missing (fileName : jsstring) (format : PaperFormat)
    (w : World) :
  documentAt cwd dirname w fileName = None ->
  convertMarkdownToPdf cwd dirname marked_parse fileName format w
  = (Returned tt,
     set_console
       (fun c =>
          c ++ [(Stderr, js "Arquivo n" ++ [227]%N ++ js "o encontrado: "
                         ++ Path.join [INPUT_DIR cwd dirname; fileName])])
       w).
Proof.
  unfold documentAt, convertMarkdownToPdf. cbv zeta. intros Hf.
  run (existsSync_run _ w). rewrite Hf. reflexivity.
Qed.

(** A document that is there and cannot be read makes the conversion
    throw, before a browser is launched. *)
Lemma convert_unreadable (fileName : jsstring) (format : PaperFormat)
    (w : World) (f : File) :
  documentAt cwd dirname w fileName = Some f ->
  readable f = false ->
  convertMarkdownToPdf cwd dirname marked_parse fileName format w
  = (Thrown (js "EACCES: " ++ Path.join [INPUT_DIR cwd dirname; fileName]), w).
Proof.
  unfold documentAt, convertMarkdownToPdf. cbv zeta. intros Hf Hr.
  run (existsSync_run _ w). rewrite Hf.
  assert (E : bool_decide (is_Some (Some f)) = true)
    by (apply bool_decide_eq_true; eauto).
  rewrite E. cbn [negb]. cbv iota.
  apply bind_thrown. exact (readFileSync_utf8_thrown _ w f Hf Hr).
Qed.

(** A document that can be read is printed, when no step of the rendering
    fails and the output directory is there. *)
Lemma convert_run (fileName : jsstring) (format : PaperFormat) (w : World)
    (f : File) (d : gmap (list N) bool) :
  documentAt cwd dirname w fileName = Some f ->
  readable f = true ->
  (forall s, fault w s = false) ->
  outdir w = Some d ->
  exists markdown c0 c,
    inlineImages cwd dirname (text f) w
    = (Returned markdown, set_console (fun _ => c0) w)
    /\ convertMarkdownToPdf cwd dirname marked_parse fileName format w
       = (Returned tt,
          afterRun w c (Some (<[outputFileName fileName format := true]> d))
            (S (launched w)) (S (closed w))
            ((composeHtml format (marked_parse markdown),
              pdfOptions (outputPath cwd dirname format fileName) format)
               :: printed w)).
Proof.
  unfold documentAt, convertMarkdownToPdf, outputPath. cbv zeta.
  intros Hf Hr Hfault Hd.
  destruct (inlineImages_console cwd dirname (text f) w) as (md & c0 & Hin).
  exists md, c0. eexists. split; [exact Hin|].
  run (existsSync_run _ w). rewrite Hf.
  assert (E : bool_decide (is_Some (Some f)) = true)
    by (apply bool_decide_eq_true; eauto).
  rewrite E. cbn [negb]. cbv iota.
  run (readFileSync_utf8_run _ w f Hf Hr).
  run Hin.
  step (apply browser_launch_run; exact (Hfault Launch)).
  step (apply step_run; exact (Hfault NewPage)).
  step (apply step_run; exact (Hfault SetContent)).
  step (eapply page_pdf_run; [exact (Hfault PrintPdf) | exact Hd]).
  step (apply browser_close_run; exact (Hfault CloseBrowser)).
  reflexivity.
Qed.

End Conversion.

(** ** The run over the documents *)

Lemma forEach_app {A S} (body : A -> S -> M S) (xs ys : list A) (acc : S)
    (w : World) :
  forEach body (xs ++ ys) acc w
  = match forEach body xs acc w with
    | (Returned acc', w') => forEach body ys acc' w'
    | (Thrown e, w') => (Thrown e, w')
    end.
Proof.
  revert acc w. induction xs as [|x xs IH]; intros acc w; [reflexivity|].
  cbn [app forEach]. unfold bind at 1 2.
  destruct (body x acc w) as [[acc'|e] w']; [apply IH | reflexivity].
Qed.

Lemma existing_files (cwd dirname : jsstring) (w w' : World)
    (names : list jsstring) :
  files w' = files w ->
  existing cwd dirname w' names = existing cwd dirname w names.
Proof. unfold existing, documentAt. now intros ->. Qed.

Section Batch.
Variable cwd : jsstring.
Variable dirname : jsstring.
Variable marked_parse : jsstring -> jsstring.

Lemma indir_readdir_run (w : World) (names : list jsstring) :
  indir w = Some names -> indir_readdir cwd dirname w = (Returned names, w).
Proof. intros H. unfold indir_readdir, bind, gets. now rewrite H. Qed.

Lemma indir_readdir_thrown (w : World) :
  indir w = None ->
  indir_readdir cwd dirname w
  = (Thrown (js "ENOENT: " ++ INPUT_DIR cwd dirname), w).
Proof. intros H. unfold indir_readdir, bind, gets. now rewrite H. Qed.

Lemma log_names_run (line : jsstring -> jsstring) (names : list jsstring) :
  forall w,
  exists c,
    forEach (fun file (_ : unit) => console_log (line file)) names tt w
    = (Returned tt, set_console (fun _ => c) w).
Proof.
  induction names as [|name names IH]; intros w.
  - exists (console w). cbn [forEach]. unfold ret. now rewrite <- set_console_id.
  - cbn [forEach]. run (console_log_run (line name) w).
    destruct (IH (set_console (fun c => c ++ [(Stdout, line name)]) w))
      as [c Hrun].
    exists c. exact Hrun.
Qed.

(** The loop over the documents: those that are there are printed, in
    order, each with its own browser; those that are not are passed
    over. *)
Lemma convert_loop (format : PaperFormat) (names : list jsstring) :
  forall (w : World) (d : gmap (list N) bool),
  (forall s, fault w s = false) ->
  outdir w = Some d ->
  Forall (legible cwd dirname w) names ->
  exists w',
    forEach
      (fun file (_ : unit) =>
         console_log ([55357; 56580]%N ++ js " Processando: " ++ file) ;;
         convertMarkdownToPdf cwd dirname marked_parse file format)
      names tt w
    = (Returned tt, w')
    /\ sameInputs w w'
    /\ outdir w' = Some (written format d (existing cwd dirname w names))
    /\ launched w' = launched w + length (existing cwd dirname w names)
    /\ closed w' = closed w + length (existing cwd dirname w names)
    /\ map (fun e => pdf_path e.2) (printed w')
       = rev (map (outputPath cwd dirname format)
                (existing cwd dirname w names))
         ++ map (fun e => pdf_path e.2) (printed w).
Proof.
  match goal with
  | |- context [forEach ?b names] => set (body := b)
  end.
  induction names as [|name names IH]; intros w d Hfault Hd Hleg.
  - exists w. unfold existing. rewrite filter_nil. cbn [forEach length].
    rewrite !Nat.add_0_r. repeat split. exact Hd.
  - apply Forall_cons in Hleg as [Hname Hleg].
    set (w0 := set_console
                 (fun c => c ++ [(Stdout, [55357; 56580]%N
                                          ++ js " Processando: " ++ name)]) w).
    unfold legible in Hname. unfold existing at 1 2 3 4.
    rewrite filter_cons. fold (existing cwd dirname w names).
    destruct (documentAt cwd dirname w name) as [f|] eqn:Ef.
    + destruct (convert_run cwd dirname marked_parse name format w0 f d
                  Ef Hname Hfault Hd) as (md & c0 & c & _ & Hconv).
      cbn [forEach]. unfold body at 1.
      step (run (console_log_run _ w); exact Hconv).
      match goal with
      | |- context [forEach body names tt ?w1] =>
          destruct (IH w1 _ Hfault eq_refl Hleg)
            as (w' & Hrun & Hsame & Hout & Hl & Hc & Hp);
          rewrite (existing_files cwd dirname w w1 names eq_refl)
            in Hout, Hl, Hc, Hp
      end.
      exists w'. split; [exact Hrun|].
      destruct (decide (is_Some (Some f))) as [_|Hn].
      2:{ exfalso. apply Hn. eauto. }
      subst w0.
      cbn [afterRun set_console outdir launched closed printed length map rev
             snd pdfOptions pdf_path] in *.
      split; [exact Hsame|]. split; [exact Hout|].
      split; [lia|]. split; [lia|].
      rewrite Hp. now rewrite <- app_assoc.
    + cbn [forEach]. unfold body at 1.
      step (run (console_log_run _ w);
            exact (convert_missing cwd dirname marked_parse name format w0 Ef)).
      match goal with
      | |- context [forEach body names tt ?w1] =>
          destruct (IH w1 d Hfault Hd Hleg)
            as (w' & Hrun & Hsame & Hout & Hl & Hc & Hp);
          rewrite (existing_files cwd dirname w w1 names eq_refl)
            in Hout, Hl, Hc, Hp
      end.
      exists w'. split; [exact Hrun|].
      destruct (decide (is_Some (@None File))) as [Hs|_].
      { destruct Hs as [x Hx]. discriminate Hx. }
      split; [exact Hsame|]. split; [exact Hout|].
      split; [exact Hl|]. split; [exact Hc|]. exact Hp.
Qed.

End Batch.

Lemma written_lookup (format : PaperFormat) (names : list jsstring) :
  forall (d : gmap (list N) bool) (name : jsstring),
  written format d names !! name
  = if decide (name ∈ map (fun n => outputFileName n format) names)
    then Some true else d !! name.
Proof.
  unfold written.
  induction names as [|n names IH]; intros d name; cbn [foldl map].
  - destruct (decide (name ∈ [])) as [H|_]; [inversion H | reflexivity].
  - rewrite IH.
    destruct (decide (name ∈ map (fun n => outputFileName n format) names))
      as [Hin|Hnin].
    + destruct (decide (name ∈ outputFileName n format
                               :: map (fun n => outputFileName n format) names))
        as [_|Hn]; [reflexivity|].
      exfalso. apply Hn. now right.
    + destruct (decide (name = outputFileName n format)) as [->|Hne].
      * rewrite lookup_insert_eq.
        destruct (decide (outputFileName n format
                            ∈ outputFileName n format
                               :: map (fun n => outputFileName n format) names))
          as [_|Hn]; [reflexivity|].
        exfalso. apply Hn. now left.
      * rewrite lookup_insert_ne by congruence.
        destruct (decide (name ∈ outputFileName n format
                                 :: map (fun n => outputFileName n format) names))
          as [Hin|_]; [|reflexivity].
        apply elem_of_cons in Hin as [Heq|Hin]; contradiction.
Qed.




Section Run.
Variable cwd : jsstring.
Variable dirname : jsstring.
Variable toUpperCase : jsstring -> jsstring.
Variable marked_parse : jsstring -> jsstring.

(** The run up to the listing of the input directory: the format is
    selected and the output directory cleaned. *)
Ltac prepare w Hh1 Hh2 format Hformat :=
  let lines := fresh "lines" in
  let Hsel := fresh "Hsel" in
  let c := fresh "c" in
  let Hclean := fresh "Hclean" in
  let line := fresh "line" in
  let E := fresh "E" in
  destruct (selectFormat_run toUpperCase w) as (format & lines & Hsel);
  assert (Hformat : (selectFormat toUpperCase w).1 = Returned format)
    by (rewrite (set_console_id w) at 1; now rewrite Hsel);
  assert (E : bool_decide (js "--help" ∈ argv w)
              || bool_decide (js "-h" ∈ argv w) = false)
    by (apply orb_false_iff; split; now apply bool_decide_eq_false);
  unfold main;
  run (console_log_run _ w);
  run (gets_run argv _);
  cbn [argv set_console]; rewrite E;
  run (Hsel (console w ++ [_]));
  run (console_log_run _ _);
  run (console_log_run _ _);
  match goal with
  | |- context [bind (cleanOutputDir _ _) _ ?w1] =>
      destruct (cleanOutputDir_effect cwd dirname w1)
        as (c & line & Hclean & _);
      run Hclean; clear Hclean;
      change (cleaned w1) with (cleaned w)
  end;
  cbn [afterRun set_console console outdir launched closed printed];
  run (console_log_run _ _);
  run (console_log_run _ _).

Lemma run_of_documents (w : World) (names : list jsstring)
    (d0 : gmap (list N) bool) :
  (js "--help" ∉ argv w) -> (js "-h" ∉ argv w) ->
  indir w = Some names ->
  (forall s, fault w s = false) ->
  cleaned w = Some d0 ->
  Forall (legible cwd dirname w) (markdownFiles names) ->
  exists format w',
    (selectFormat toUpperCase w).1 = Returned format
    /\ main cwd dirname toUpperCase marked_parse w = (Returned tt, w')
    /\ sameInputs w w'
    /\ outdir w'
       = Some (written format d0
                 (existing cwd dirname w (markdownFiles names)))
    /\ launched w'
       = launched w + length (existing cwd dirname w (markdownFiles names))
    /\ closed w'
       = closed w + length (existing cwd dirname w (markdownFiles names))
    /\ map (fun e => pdf_path e.2) (printed w')
       = rev (map (outputPath cwd dirname format)
                (existing cwd dirname w (markdownFiles names)))
         ++ map (fun e => pdf_path e.2) (printed w).
Proof.
  intros Hh1 Hh2 Hin Hfault Hdir Hleg.
  prepare w Hh1 Hh2 format Hformat.
  exists format.
  step (apply indir_readdir_run; exact Hin).
  cbv zeta. fold (markdownFiles names).
  destruct (markdownFiles names) as [|name rest] eqn:Emd.
  - cbn [length Nat.eqb]. cbv iota. rewrite console_log_run.
    eexists. split; [exact Hformat|]. split; [reflexivity|].
    unfold existing. rewrite filter_nil. cbn [length rev map app written foldl].
    rewrite !Nat.add_0_r. repeat split. exact Hdir.
  - assert (El : (length (name :: rest) =? 0)%nat = false) by reflexivity.
    rewrite <- Emd in *. clear Emd.
    rewrite El.
    run (console_log_run _ _).
    match goal with
    | |- context [bind (forEach ?b ?l tt) _ ?w1] =>
        destruct (log_names_run
                    (fun file => js "   " ++ [8226]%N ++ js " " ++ file) l w1)
          as [c1 Hlist];
        run Hlist; clear Hlist
    end.
    run (console_log_run _ _).
    run (console_log_run _ _).
    cbn [afterRun set_console console outdir launched closed printed].
    match goal with
    | |- context [bind (forEach ?b ?l tt) _ ?w1] =>
        destruct (convert_loop cwd dirname marked_parse format l w1
                    d0 Hfault Hdir Hleg)
          as (w2 & Hloop & Hsame & Hout & Hl & Hc & Hp);
        rewrite (existing_files cwd dirname w w1 l eq_refl)
          in Hout, Hl, Hc, Hp
    end.
    run Hloop.
    run (console_log_run _ _). rewrite console_log_run.
    eexists. split; [exact Hformat|]. split; [reflexivity|].
    cbn [set_console outdir launched closed printed].
    split; [exact Hsame|]. split; [exact Hout|]. split; [exact Hl|].
    split; [exact Hc|]. exact Hp.
Qed.

(** When the input directory cannot be listed the run throws, and it
    does so after the cleanup of the output directory: the directory is as
    the cleanup leaves it, so the PDFs of the run before that could be
    removed are gone when the directory could be listed, and no document
    is printed. *)
Theorem unreadable_input_directory_is_fatal (w : World) :
  (js "--help" ∉ argv w) -> (js "-h" ∉ argv w) ->
  indir w = None ->
  exists e w',
    main cwd dirname toUpperCase marked_parse w = (Thrown e, w')
    /\ sameInputs w w'
    /\ outdir w' = cleaned w
    /\ (cleanupFails w = false ->
        exists d',
          outdir w' = Some d'
          /\ forall name,
               endsWith name (js ".pdf") = true -> d' !! name <> Some true)
    /\ launched w' = launched w /\ closed w' = closed w
    /\ printed w' = printed w.
Proof.
  intros Hh1 Hh2 Hin.
  prepare w Hh1 Hh2 format Hformat.
  eexists _, _. split.
  - apply bind_thrown. apply indir_readdir_thrown. exact Hin.
  - cbn [set_console outdir launched closed printed].
    split; [repeat split|]. split; [reflexivity|].
    split; [|repeat split].
    intros Hok. unfold cleaned. rewrite Hok.
    destruct (outdir w) as [d|].
    + exists (sweptDir d). split; [reflexivity|]. intros name Hpdf.
      rewrite sweptDir_lookup, Hpdf. now destruct (d !! name) as [[|]|].
    + exists ∅. split; [reflexivity|]. intros name _.
      now rewrite lookup_empty.
Qed.

(** A document that is there and cannot be read makes the run throw: when
    the output directory is there after the cleanup, the documents listed
    before it have been printed, each with a browser launched and closed,
    and those after it are not converted. *)
Theorem unreadable_document_stops_the_run (w : World)
    (names good rest : list jsstring)
    (bad : jsstring) (f : File) (d0 : gmap (list N) bool) :
  (js "--help" ∉ argv w) -> (js "-h" ∉ argv w) ->
  indir w = Some names ->
  (forall s, fault w s = false) ->
  cleaned w = Some d0 ->
  markdownFiles names = good ++ bad :: rest ->
  Forall (legible cwd dirname w) good ->
  documentAt cwd dirname w bad = Some f ->
  readable f = false ->
  exists format e w',
    (selectFormat toUpperCase w).1 = Returned format
    /\ main cwd dirname toUpperCase marked_parse w = (Thrown e, w')
    /\ outdir w' = Some (written format d0 (existing cwd dirname w good))
    /\ launched w' = launched w + length (existing cwd dirname w good)
    /\ closed w' = closed w + length (existing cwd dirname w good)
    /\ map (fun e => pdf_path e.2) (printed w')
       = rev (map (outputPath cwd dirname format) (existing cwd dirname w good))
         ++ map (fun e => pdf_path e.2) (printed w).
Proof.
  intros Hh1 Hh2 Hin Hfault Hdir Hmd Hleg Hbad Hr.
  prepare w Hh1 Hh2 format Hformat.
  exists format.
  step (apply indir_readdir_run; exact Hin).
  cbv zeta. fold (markdownFiles names). rewrite Hmd.
  assert (El : (length (good ++ bad :: rest) =? 0)%nat = false).
  { rewrite length_app. cbn [length]. apply Nat.eqb_neq. lia. }
  rewrite El.
  run (console_log_run _ _).
  match goal with
  | |- context [bind (forEach ?b ?l tt) _ ?w1] =>
      destruct (log_names_run
                  (fun file => js "   " ++ [8226]%N ++ js " " ++ file) l w1)
        as [c1 Hlist];
      run Hlist; clear Hlist
  end.
  run (console_log_run _ _).
  run (console_log_run _ _).
  cbn [afterRun set_console console outdir launched closed printed].
  match goal with
  | |- context [bind (forEach ?b _ tt) _ ?w1] =>
      destruct (convert_loop cwd dirname marked_parse format good w1
                  d0 Hfault Hdir Hleg)
        as (w2 & Hloop & Hsame & Hout & Hl & Hc & Hp);
      rewrite (existing_files cwd dirname w w1 good eq_refl)
        in Hout, Hl, Hc, Hp
  end.
  destruct Hsame as (_ & _ & Hfiles & _ & _).
  cbn [files] in Hfiles.
  eexists _, _. split; [exact Hformat|]. split.
  - apply bind_thrown. rewrite forEach_app, Hloop. cbn [forEach].
    apply bind_thrown. run (console_log_run _ w2).
    apply (convert_unreadable cwd dirname marked_parse bad format _ f);
      [|exact Hr].
    unfold documentAt in *. cbn [files set_console]. now rewrite Hfiles.
  - cbn [set_console outdir launched closed printed].
    split; [exact Hout|]. split; [exact Hl|]. split; [exact Hc|]. exact Hp.
Qed.


End Run.

(** ** The cleanup, the conversion and the run *)

Lemma filter_none {A} (P : A -> Prop) `{!forall x, Decision (P x)}
    (l : list A) :
  (forall x, x ∈ l -> ~ P x) -> filter P l = [].
Proof.
  induction l as [|x l IH]; intros Hnone; [reflexivity|].
  rewrite filter_cons. destruct (decide (P x)) as [Hx|_].
  - exfalso. apply (Hnone x); [now left | exact Hx].
  - apply IH. intros y Hy. apply Hnone. now right.
Qed.

Lemma find_app_Some {A} (f : A -> bool) (l k : list A) (a : A) :
  find f l = Some a -> find f (l ++ k) = Some a.
Proof.
  induction l as [|x l IH]; cbn [find app]; [discriminate|].
  destruct (f x); [easy | exact IH].
Qed.

(** The cleanup touches the console and the output directory only, and
    the last line it logs tells what it did: that the directory was made,
    that it holds no PDF, or how many [.pdf] entries were removed, which is
    the number of those that could be; or, when the directory cannot be
    made or listed, the error, and then the directory is as it was. *)
Theorem cleanup_reports_what_it_removed (cwd dirname : jsstring) (w : World) :
  exists w',
    cleanOutputDir cwd dirname w = (Returned tt, w')
    /\ sameInputs w w'
    /\ launched w' = launched w /\ closed w' = closed w
    /\ printed w' = printed w
    /\ (cleanupFails w = false ->
        last (console w')
        = Some (Stdout, cleanupReport cwd dirname (outdir w)))
    /\ (cleanupFails w = true ->
        outdir w' = outdir w
        /\ exists error,
             last (console w') = Some (Stderr, cleanupError error)).
Proof.
  destruct (cleanOutputDir_effect cwd dirname w)
    as (c & line & H & Hok & Hfail).
  eexists. split; [exact H|].
  cbn [afterRun launched closed printed console outdir].
  split; [repeat split|]. do 3 (split; [reflexivity|]). split.
  - intros E. rewrite (Hok E). apply last_snoc.
  - intros E. split; [unfold cleaned; now rewrite E|].
    destruct (Hfail E) as [error ->]. exists error. apply last_snoc.
Qed.

(** A second cleanup right after the first leaves the output directory as
    the first left it, and it finds nothing it can remove when the first
    could make or list the directory. *)
Theorem cleanup_idempotent (cwd dirname : jsstring) (w : World) :
  exists w1 w2,
    cleanOutputDir cwd dirname w = (Returned tt, w1)
    /\ cleanOutputDir cwd dirname w1 = (Returned tt, w2)
    /\ outdir w2 = outdir w1
    /\ (cleanupFails w = false ->
        forall d1, outdir w1 = Some d1 -> removable d1 (pdfNames d1) = []).
Proof.
  destruct (cleanOutputDir_effect cwd dirname w) as (c & line & H & _).
  match type of H with
  | _ = (_, ?w1) =>
      destruct (cleanOutputDir_effect cwd dirname w1) as (c2 & line2 & H2 & _)
  end.
  eexists _, _. split; [exact H|]. split; [exact H2|].
  cbn [afterRun outdir].
  assert (Hs : forall d, sweptDir (sweptDir d) = sweptDir d)
    by apply sweptDir_idemp.
  assert (He : sweptDir ∅ = ∅) by apply map_filter_empty.
  split.
  - unfold cleaned at 1, cleanupFails at 1. cbn [afterRun outdir outfault].
    unfold cleaned, cleanupFails.
    destruct (outdir w) as [d|].
    + destruct (outfault w ListDirectory); [reflexivity | now rewrite Hs].
    + destruct (outfault w MakeDirectory); [reflexivity|].
      destruct (outfault w ListDirectory); [reflexivity | now rewrite He].
  - intros Hok d1 Hd1. unfold cleaned in Hd1. rewrite Hok in Hd1.
    apply filter_none. intros name Hname Hrem.
    apply pdfNames_elem in Hname as [Hpdf _].
    destruct (outdir w) as [d|].
    + assert (Ed : d1 = sweptDir d) by congruence. subst d1.
      rewrite sweptDir_lookup, Hpdf in Hrem.
      now destruct (d !! name) as [[|]|].
    + assert (Ed : d1 = ∅) by congruence. subst d1.
      now rewrite lookup_empty in Hrem.
Qed.

(** The conversion of a document that can be read, when no step of the
    rendering fails and the output directory is there: the browser is
    launched and closed once, the page printed is the template around the
    parsed document with its images inlined, with the options of the
    format, and the PDF is in the output directory under the name of the
    document and the format. *)
Theorem conversion_prints_the_document (cwd dirname : jsstring)
    (marked_parse : jsstring -> jsstring) (fileName : jsstring)
    (format : PaperFormat) (w : World) (f : File) (d : gmap (list N) bool) :
  documentAt cwd dirname w fileName = Some f ->
  readable f = true ->
  (forall s, fault w s = false) ->
  outdir w = Some d ->
  exists markdown w',
    (inlineImages cwd dirname (text f) w).1 = Returned markdown
    /\ convertMarkdownToPdf cwd dirname marked_parse fileName format w
       = (Returned tt, w')
    /\ sameInputs w w'
    /\ outdir w' = Some (<[outputFileName fileName format := true]> d)
    /\ launched w' = S (launched w) /\ closed w' = S (closed w)
    /\ printed w'
       = (composeHtml format (marked_parse markdown),
          pdfOptions (outputPath cwd dirname format fileName) format)
           :: printed w.
Proof.
  intros Hf Hr Hfault Hd.
  destruct (convert_run cwd dirname marked_parse fileName format w f d
              Hf Hr Hfault Hd) as (md & c0 & c & Hin & Hconv).
  exists md. eexists. split; [now rewrite Hin|]. split; [exact Hconv|].
  repeat split.
Qed.

Lemma conversion_prints_the_document_witness :
  exists w',
    convertMarkdownToPdf Example.cwd Example.dirname (fun markdown => markdown)
      (js "b.md") A3 Batch.world
    = (Returned tt, w')
    /\ launched w' = 1 /\ closed w' = 1
    /\ map (fun e => pdf_path e.2) (printed w') = [js "/app/output/b.a3.pdf"].
Proof.
  destruct (conversion_prints_the_document Example.cwd Example.dirname
              (fun markdown => markdown) (js "b.md") A3 Batch.world
              (Example.document (js "![x](./a.png)"))
              {[ js "old.a4.pdf" := true; js "locked.pdf" := false;
                 js "notes.txt" := true ]})
    as (md & w' & _ & Hconv & _ & _ & Hl & Hc & Hp);
    [vm_compute; reflexivity | reflexivity | reflexivity | reflexivity |].
  exists w'. split; [exact Hconv|]. split; [exact Hl|]. split; [exact Hc|].
  rewrite Hp. vm_compute. reflexivity.
Defined.

Section RunProperties.
Variable cwd : jsstring.
Variable dirname : jsstring.
Variable toUpperCase : jsstring -> jsstring.
Variable marked_parse : jsstring -> jsstring.

(** A run without [--help], over an input directory that can be listed,
    whose Markdown documents can be read when they are there, with no
    failing step of the rendering and an output directory that is there
    after the cleanup, with the entries [d0]: the run returns; every
    document of the directory whose name ends in [.md] and that is there is
    printed once, in the order of the listing, each with a browser of its
    own, launched and closed; the output directory holds their PDFs and,
    of what it held before, what the cleanup left. *)
Theorem run_converts_every_document (w : World) (names : list jsstring)
    (d0 : gmap (list N) bool) :
  (js "--help" ∉ argv w) -> (js "-h" ∉ argv w) ->
  indir w = Some names ->
  (forall s, fault w s = false) ->
  cleaned w = Some d0 ->
  Forall (legible cwd dirname w) (markdownFiles names) ->
  exists format w' d',
    let docs := existing cwd dirname w (markdownFiles names) in
    (selectFormat toUpperCase w).1 = Returned format
    /\ main cwd dirname toUpperCase marked_parse w = (Returned tt, w')
    /\ outdir w' = Some d'
    /\ (forall name,
          d' !! name
          = if decide (name ∈ map (fun doc => outputFileName doc format) docs)
            then Some true else d0 !! name)
    /\ launched w' = launched w + length docs
    /\ closed w' = closed w + length docs
    /\ map (fun e => pdf_path e.2) (printed w')
       = rev (map (outputPath cwd dirname format) docs)
         ++ map (fun e => pdf_path e.2) (printed w).
Proof.
  intros Hh1 Hh2 Hin Hfault Hdir Hleg.
  destruct (run_of_documents cwd dirname toUpperCase marked_parse w names d0
              Hh1 Hh2 Hin Hfault Hdir Hleg)
    as (format & w' & Hformat & Hmain & _ & Hout & Hl & Hc & Hp).
  exists format, w'. eexists. cbv zeta.
  split; [exact Hformat|]. split; [exact Hmain|]. split; [exact Hout|].
  split; [apply written_lookup|]. easy.
Qed.

End RunProperties.

Lemma run_converts_every_document_witness :
  exists w',
    main Example.cwd Example.dirname asciiUpperCase (fun markdown => markdown)
      Batch.world
    = (Returned tt, w')
    /\ launched w' = 2 /\ closed w' = 2
    /\ map (fun e => pdf_path e.2) (printed w')
       = [js "/app/output/b.a5.pdf"; js "/app/output/a.a5.pdf"].
Proof.
  destruct (run_converts_every_document Example.cwd Example.dirname
              asciiUpperCase (fun markdown => markdown) Batch.world
              [js "a.md"; js "a.png"; js "gone.md"; js "b.md"]
              (default ∅ (cleaned Batch.world)))
    as (format & w' & d' & Hformat & Hmain & _ & _ & Hl & Hc & Hp).
  - apply (bool_decide_unpack _). vm_compute. exact I.
  - apply (bool_decide_unpack _). vm_compute. exact I.
  - reflexivity.
  - reflexivity.
  - reflexivity.
  - assert (E : markdownFiles [js "a.md"; js "a.png"; js "gone.md"; js "b.md"]
                = [js "a.md"; js "gone.md"; js "b.md"])
      by (vm_compute; reflexivity).
    rewrite E.
    repeat (apply Forall_cons; split; [vm_compute; auto|]). constructor.
  - exists w'. split; [exact Hmain|]. split; [exact Hl|]. split; [exact Hc|].
    vm_compute in Hformat.
    assert (Ef : format = A5) by congruence. subst format.
    rewrite Hp. vm_compute. reflexivity.
Defined.

Lemma unreadable_input_directory_is_fatal_witness :
  let w :=
    {| argv := [js "node"; js "index.js"; js "--format=A4"];
       answer := []; console := []; files := ∅; indir := None;
       outdir := Some {[ js "old.a4.pdf" := true ]};
       launched := 0; closed := 0; printed := [];
       fault := fun _ => false;
       outfault := fun _ => false; closedOnFailure := false |} in
  exists e w',
    main Example.cwd Example.dirname asciiUpperCase (fun markdown => markdown) w
    = (Thrown e, w')
    /\ outdir w' ≫= (fun d' => d' !! js "old.a4.pdf") = None
    /\ launched w' = 0.
Proof.
  cbv zeta.
  match goal with
  | |- exists e w', main _ _ _ _ ?w = _ /\ _ =>
      destruct (unreadable_input_directory_is_fatal Example.cwd
                  Example.dirname asciiUpperCase (fun markdown => markdown) w)
        as (e & w' & Hmain & _ & Hout & _ & Hl & _)
  end.
  - apply (bool_decide_unpack _). vm_compute. exact I.
  - apply (bool_decide_unpack _). vm_compute. exact I.
  - reflexivity.
  - exists e, w'. split; [exact Hmain|]. rewrite Hout.
    split; [vm_compute; reflexivity | exact Hl].
Defined.

Lemma unreadable_document_stops_the_run_witness :
  exists e w',
    main Example.cwd Example.dirname asciiUpperCase (fun markdown => markdown)
      Batch.broken
    = (Thrown e, w')
    /\ launched w' = 1 /\ closed w' = 1
    /\ map (fun e => pdf_path e.2) (printed w') = [js "/app/output/a.a5.pdf"].
Proof.
  destruct (unreadable_document_stops_the_run Example.cwd Example.dirname
              asciiUpperCase (fun markdown => markdown) Batch.broken
              [js "a.md"; js "b.md"; js "c.md"] [js "a.md"] [js "c.md"]
              (js "b.md") {| readable := false; bytes := []; text := [] |}
              (default ∅ (cleaned Batch.broken)))
    as (format & e & w' & Hformat & Hmain & _ & Hl & Hc & Hp).
  - apply (bool_decide_unpack _). vm_compute. exact I.
  - apply (bool_decide_unpack _). vm_compute. exact I.
  - reflexivity.
  - reflexivity.
  - reflexivity.
  - vm_compute. reflexivity.
  - repeat (apply Forall_cons; split; [vm_compute; auto|]). constructor.
  - vm_compute. reflexivity.
  - reflexivity.
  - exists e, w'. split; [exact Hmain|]. split; [exact Hl|]. split; [exact Hc|].
    vm_compute in Hformat.
    assert (Ef : format = A5) by congruence. subst format.
    rewrite Hp. vm_compute. reflexivity.
Defined.


(** ** The command line and the prompt *)

(** Only the first [--format=] argument is looked at: what follows it on
    the command line changes neither the format nor what is logged. *)
Theorem first_format_flag_decides (toUpperCase : jsstring -> jsstring)
    (w : World) (formatArg : jsstring) (extra : list jsstring) :
  find (fun arg => startsWith arg (js "--format=")) (drop 2 (argv w))
  = Some formatArg ->
  getFormatFromArgs toUpperCase (set_argv (argv w ++ extra) w)
  = ((getFormatFromArgs toUpperCase w).1,
     set_argv (argv w ++ extra) (getFormatFromArgs toUpperCase w).2).
Proof.
  intros Hfind.
  assert (Hlen : 2 <= length (argv w)).
  { destruct (argv w) as [|a [|b l]]; cbn [length]; [discriminate..|lia]. }
  assert (Hfind' :
    find (fun arg => startsWith arg (js "--format="))
      (drop 2 (argv w ++ extra)) = Some formatArg).
  { rewrite drop_app_le by exact Hlen. now apply find_app_Some. }
  unfold getFormatFromArgs.
  rewrite !(bind_run (gets argv) _ _ _ _ (gets_run argv _)).
  cbv zeta. cbn [argv set_argv]. rewrite Hfind', Hfind.
  destruct ((toUpperCase <$> split 61 formatArg !! 1) ≫= formatOfString);
    reflexivity.
Qed.

Lemma first_format_flag_decides_witness :
  let w :=
    {| argv := [js "node"; js "index.js"; js "--format=a3"];
       answer := []; console := []; files := ∅; indir := None;
       outdir := None; launched := 0; closed := 0; printed := [];
       fault := fun _ => false;
       outfault := fun _ => false; closedOnFailure := false |} in
  (getFormatFromArgs asciiUpperCase
     (set_argv (argv w ++ [js "--format=zz"; js "--format=A5"]) w)).1
  = Returned (Some A3).
Proof.
  cbv zeta.
  rewrite (first_format_flag_decides asciiUpperCase _ (js "--format=a3"));
    reflexivity.
Defined.

(** The prompt returns a format whatever is typed and touches nothing but
    the console; it warns of an invalid option exactly when the line typed,
    without the white space around it, is neither empty nor one of 1, 2, 3
    and 4, and the format is A4 then. *)
Theorem prompt_warns_of_invalid_option (w : World) :
  exists format lines,
    promptForFormat w = (Returned format, set_console (fun c => c ++ lines) w)
    /\ ((Stdout, promptWarning) ∈ lines
        <-> trim (answer w) ∉ [[]; js "1"; js "2"; js "3"; js "4"])
    /\ ((Stdout, promptWarning) ∈ lines -> format = A4).
Proof.
  destruct (promptForFormat_menu w) as (menu & Hnot & Hmenu).
  specialize (Hmenu (console w)). rewrite <- set_console_id in Hmenu.
  rewrite Hmenu. clear Hmenu. cbv zeta.
  destruct (trim (answer w)) as [|ch t] eqn:Et.
  { exists A4, menu. split; [reflexivity|]. split; [|reflexivity].
    split; [intros H; contradiction|].
    intros H. exfalso. apply H. now left. }
  destruct (str_eqb (ch :: t) (js "1")) eqn:E1.
  { apply str_eqb_eq in E1. exists A2, menu. split; [reflexivity|].
    split; [|intros H; contradiction].
    split; [intros H; contradiction|].
    intros H. exfalso. apply H. rewrite E1. right. now left. }
  destruct (str_eqb (ch :: t) (js "2")) eqn:E2.
  { apply str_eqb_eq in E2. exists A3, menu. split; [reflexivity|].
    split; [|intros H; contradiction].
    split; [intros H; contradiction|].
    intros H. exfalso. apply H. rewrite E2. do 2 right. now left. }
  destruct (str_eqb (ch :: t) (js "3")) eqn:E3.
  { apply str_eqb_eq in E3. exists A4, menu. split; [reflexivity|].
    split; [|reflexivity].
    split; [intros H; contradiction|].
    intros H. exfalso. apply H. rewrite E3. do 3 right. now left. }
  destruct (str_eqb (ch :: t) (js "4")) eqn:E4.
  { apply str_eqb_eq in E4. exists A5, menu. split; [reflexivity|].
    split; [|intros H; contradiction].
    split; [intros H; contradiction|].
    intros H. exfalso. apply H. rewrite E4. do 4 right. now left. }
  exists A4, (menu ++ [(Stdout, promptWarning)]). split.
  { run (console_log_more promptWarning (console w) menu w). reflexivity. }
  split; [|reflexivity].
  split; [intros _ | intros _; apply elem_of_app; right; now left].
  intros H. rewrite !elem_of_cons, elem_of_nil in H.
  destruct H as [H|[H|[H|[H|[H|[]]]]]];
    [discriminate H | apply str_eqb_eq in H; congruence ..].
Qed.
